(** * Quadtree spatial index: a shallow embedding of [Rect], [GameObject]
    and [Quadtree] (constructor, [subdivide], [insert], [query]) and the
    properties of the specification checked against it.

    Coordinates are C++ [float]: IEEE-754 binary32 with round-to-nearest-even,
    modelled with the Standard Library's [spec_float] at precision 24 and
    maximal exponent 128.  [capacity] is a C++ [int] (a [Z]); the comparison
    [objects.size() < capacity] converts it to [size_t] (64 bits).  A
    [GameObject*] is identified with the object it designates.

    Two smaller programs of the repository follow the quadtree: the
    recursion of the Sierpinski triangle ([drawSierpinski], on binary64
    points, its output being the sequence of [drawLine] calls) and the
    escape-time loop of the Julia set ([julia_iterations], over the
    operations of [std::complex<double>], with the colour of a pixel). *)

From Stdlib Require Import ZArith List Bool Lia Permutation FinFun.
From Stdlib Require Import Floats.SpecFloat.
Import ListNotations.
Local Open Scope Z_scope.

(** ** binary32 arithmetic *)

Module F32.

Definition prec : Z := 24.
Definition emax : Z := 128.

Definition float := spec_float.

(** Conversion of an integer literal ([800], [2], ...) to [float]. *)
Definition of_int (z : Z) : float := binary_normalize prec emax z 0 false.

Definition add (a b : float) : float := SFadd prec emax a b.
Definition div (a b : float) : float := SFdiv prec emax a b.

(** [a < b], [a > b], [a <= b], [a >= b] of C++ on floats. *)
Definition lt (a b : float) : bool := SFltb a b.
Definition gt (a b : float) : bool := SFltb b a.
Definition le (a b : float) : bool := SFleb a b.
Definition ge (a b : float) : bool := SFleb b a.
Definition eq (a b : float) : bool := SFeqb a b.

Definition is_nan (a : float) : bool :=
  match a with S754_nan => true | _ => false end.

Definition two : float := of_int 2.

End F32.

Definition float : Type := F32.float.

(** ** Rect *)

Record Rect : Type := mkRect { x : float; y : float; width : float; height : float }.

(** [Rect::contains]. *)
Definition contains (r : Rect) (px py : float) : bool :=
  F32.ge px (x r) && F32.le px (F32.add (x r) (width r)) &&
  F32.ge py (y r) && F32.le py (F32.add (y r) (height r)).

(** [Rect::intersects]: [this] is the first argument. *)
Definition intersects (r other : Rect) : bool :=
  negb (F32.lt (F32.add (x r) (width r)) (x other) ||
        F32.lt (F32.add (y r) (height r)) (y other) ||
        F32.gt (x r) (F32.add (x other) (width other)) ||
        F32.gt (y r) (F32.add (y other) (height other))).

(** A rectangle given by integer literals, as in [Rect{0, 0, 800, 600}]. *)
Definition rect (a b c d : Z) : Rect :=
  mkRect (F32.of_int a) (F32.of_int b) (F32.of_int c) (F32.of_int d).

(** ** GameObject *)

Record GameObject : Type := mkGameObject { id : Z; bounds : Rect }.

(** ** Quadtree *)

(** A node.  The private members [divided] and [children] change together,
    and only in [subdivide]: [Leaf] is a node with [divided == false] and
    four null children, [Split] one with [divided == true] and the children
    [children[0]] (north-east), [children[1]] (north-west), [children[2]]
    (south-east), [children[3]] (south-west). *)
Inductive Quadtree : Type :=
| Leaf (boundary : Rect) (capacity : Z) (objects : list GameObject)
| Split (boundary : Rect) (capacity : Z) (objects : list GameObject)
        (c0 c1 c2 c3 : Quadtree).

Definition boundary (t : Quadtree) : Rect :=
  match t with Leaf b _ _ | Split b _ _ _ _ _ _ => b end.

Definition capacity (t : Quadtree) : Z :=
  match t with Leaf _ c _ | Split _ c _ _ _ _ _ => c end.

Definition objects (t : Quadtree) : list GameObject :=
  match t with Leaf _ _ l | Split _ _ l _ _ _ _ => l end.

Definition divided (t : Quadtree) : bool :=
  match t with Leaf _ _ _ => false | Split _ _ _ _ _ _ _ => true end.

Definition children (t : Quadtree) : list Quadtree :=
  match t with
  | Leaf _ _ _ => []
  | Split _ _ _ c0 c1 c2 c3 => [c0; c1; c2; c3]
  end.

(** The constructor [Quadtree(boundary, capacity)]. *)
Definition new_Quadtree (b : Rect) (cap : Z) : Quadtree := Leaf b cap [].

(** The largest [int], and the conversion to [size_t] that the usual
    arithmetic conversions apply to [capacity] in
    [objects.size() < capacity]. *)
Definition INT_MAX : Z := 2 ^ 31 - 1.
Definition to_size_t (c : Z) : Z := c mod 2 ^ 64.

Definition size_lt_capacity (l : list GameObject) (cap : Z) : bool :=
  Z.of_nat (length l) <? to_size_t cap.

Definition size_le_capacity (l : list GameObject) (cap : Z) : bool :=
  Z.of_nat (length l) <=? to_size_t cap.

(** The four quadrants computed by [subdivide], in the order of the
    [children] array. *)
Definition quadrants (b : Rect) : Rect * Rect * Rect * Rect :=
  let subWidth := F32.div (width b) F32.two in
  let subHeight := F32.div (height b) F32.two in
  let x := x b in
  let y := y b in
  (mkRect (F32.add x subWidth) y subWidth subHeight,
   mkRect x y subWidth subHeight,
   mkRect (F32.add x subWidth) (F32.add y subHeight) subWidth subHeight,
   mkRect x (F32.add y subHeight) subWidth subHeight).

(** [Quadtree::subdivide]. *)
Definition subdivide (t : Quadtree) : Quadtree :=
  let '(ne, nw, se, sw) := quadrants (boundary t) in
  Split (boundary t) (capacity t) (objects t)
        (new_Quadtree ne (capacity t)) (new_Quadtree nw (capacity t))
        (new_Quadtree se (capacity t)) (new_Quadtree sw (capacity t)).

(** [objects.push_back(obj)] on a node. *)
Definition push_back (t : Quadtree) (obj : GameObject) : Quadtree :=
  match t with
  | Leaf b c l => Leaf b c (l ++ [obj])
  | Split b c l c0 c1 c2 c3 => Split b c (l ++ [obj]) c0 c1 c2 c3
  end.

(** Results of a call that may exhaust its recursion budget. *)
Definition bind {A B : Type} (m : option A) (k : A -> option B) : option B :=
  match m with Some a => k a | None => None end.

Notation "' p <- m ;; k" := (bind m (fun p => k))
  (at level 61, p pattern, m at next level, right associativity).

(** [Quadtree::insert].  The recursion of the source is not structural (a
    node inserts into children it has just created), so the call depth is
    bounded by [fuel]; [None] is a call that needs a deeper recursion.  The
    result is the returned [bool] and the node after the call.  After the
    test of [divided] the node has children, so the [Leaf] branch of the
    [match] is never taken. *)
Fixpoint insert (fuel : nat) (t : Quadtree) (obj : GameObject)
  : option (bool * Quadtree) :=
  match fuel with
  | O => None
  | S fuel =>
    if negb (intersects (boundary t) (bounds obj)) then Some (false, t)
    else if size_lt_capacity (objects t) (capacity t) && negb (divided t)
    then Some (true, push_back t obj)
    else
      match (if negb (divided t) then subdivide t else t) with
      | Leaf _ _ _ => None
      | Split b c l c0 c1 c2 c3 =>
        '(r0, c0) <- insert fuel c0 obj ;;
        if r0 : bool then Some (true, Split b c l c0 c1 c2 c3) else
        '(r1, c1) <- insert fuel c1 obj ;;
        if r1 : bool then Some (true, Split b c l c0 c1 c2 c3) else
        '(r2, c2) <- insert fuel c2 obj ;;
        if r2 : bool then Some (true, Split b c l c0 c1 c2 c3) else
        '(r3, c3) <- insert fuel c3 obj ;;
        if r3 : bool then Some (true, Split b c l c0 c1 c2 c3) else
        Some (true, Split b c (l ++ [obj]) c0 c1 c2 c3)
      end
  end.

(** The loop over [objects] in [query]. *)
Fixpoint query_objects (range : Rect) (l : list GameObject)
         (found : list GameObject) : list GameObject :=
  match l with
  | [] => found
  | obj :: l =>
    query_objects range l
      (if intersects range (bounds obj) then found ++ [obj] else found)
  end.

(** [Quadtree::query]: [found] is the vector passed by reference, the result
    is its value after the call. *)
Fixpoint query (t : Quadtree) (range : Rect) (found : list GameObject)
  : list GameObject :=
  if negb (intersects (boundary t) range) then found
  else
    let found := query_objects range (objects t) found in
    match t with
    | Leaf _ _ _ => found
    | Split _ _ _ c0 c1 c2 c3 =>
      query c3 range (query c2 range (query c1 range (query c0 range found)))
    end.

(** A sequence of [insert] calls on one tree, as in [main]; the returned
    booleans are collected in call order. *)
Fixpoint insert_all (fuel : nat) (t : Quadtree) (objs : list GameObject)
  : option (list bool * Quadtree) :=
  match objs with
  | [] => Some ([], t)
  | obj :: objs =>
    '(r, t) <- insert fuel t obj ;;
    '(rs, t) <- insert_all fuel t objs ;;
    Some (r :: rs, t)
  end.

(** ** The scenario of [main] *)

Definition worldBoundary : Rect := rect 0 0 800 600.

Definition obj1 := mkGameObject 1 (rect 10 10 20 20).
Definition obj2 := mkGameObject 2 (rect 700 50 30 30).
Definition obj3 := mkGameObject 3 (rect 50 500 40 40).
Definition obj4 := mkGameObject 4 (rect 300 250 50 50).
Definition obj5 := mkGameObject 5 (rect 320 270 10 10).
Definition obj6 := mkGameObject 6 (rect 150 150 60 60).
Definition obj7 := mkGameObject 7 (rect 380 290 20 20).
Definition obj8 := mkGameObject 8 (rect 750 550 10 10).

Definition main_objects : list GameObject :=
  [obj1; obj2; obj3; obj4; obj5; obj6; obj7; obj8].

Definition queryRange : Rect := rect 280 200 100 100.
Definition playerView : Rect := rect 0 0 100 100.

Definition main_tree : option (list bool * Quadtree) :=
  insert_all 3 (new_Quadtree worldBoundary 4) main_objects.

(** ** Derived notions used in the statements *)

(** Every object stored in the subtree of [t], node first, then the children
    in array order (the order in which [query] visits them). *)
Fixpoint all_objects (t : Quadtree) : list GameObject :=
  match t with
  | Leaf _ _ l => l
  | Split _ _ l c0 c1 c2 c3 =>
    l ++ all_objects c0 ++ all_objects c1 ++ all_objects c2 ++ all_objects c3
  end.

(** Depth of the tree below [t]. *)
Fixpoint depth (t : Quadtree) : nat :=
  match t with
  | Leaf _ _ _ => 0
  | Split _ _ _ c0 c1 c2 c3 =>
    S (Nat.max (Nat.max (depth c0) (depth c1))
               (Nat.max (depth c2) (depth c3)))
  end.

(** A capacity under which an empty node accepts an object:
    [0 < capacity] after the conversion to [size_t]. *)
Definition cap_pos (c : Z) : Prop := 0 < to_size_t c.

(** Every node of [t] has such a capacity. *)
Fixpoint caps_ok (t : Quadtree) : Prop :=
  match t with
  | Leaf _ c _ => cap_pos c
  | Split _ c _ c0 c1 c2 c3 =>
    cap_pos c /\ caps_ok c0 /\ caps_ok c1 /\ caps_ok c2 /\ caps_ok c3
  end.

(** Every node of [t] has capacity [c]. *)
Fixpoint caps_all (c : Z) (t : Quadtree) : Prop :=
  match t with
  | Leaf _ c' _ => c' = c
  | Split _ c' _ c0 c1 c2 c3 =>
    c' = c /\ caps_all c c0 /\ caps_all c c1 /\ caps_all c c2 /\ caps_all c c3
  end.

(** [objects.size() <= capacity] at every node that has not subdivided. *)
Fixpoint leaves_within_capacity (t : Quadtree) : Prop :=
  match t with
  | Leaf _ c l => size_le_capacity l c = true
  | Split _ _ _ c0 c1 c2 c3 =>
    leaves_within_capacity c0 /\ leaves_within_capacity c1 /\
    leaves_within_capacity c2 /\ leaves_within_capacity c3
  end.

(** How a divided node [Split b c l c0 c1 c2 c3] disposes of [obj] when the
    calls on its children behave as [ins]: the first child, in array order,
    whose call returns [true] keeps it; if none does, the node itself does. *)
Inductive delegated (ins : Quadtree -> option (bool * Quadtree))
          (b : Rect) (c : Z) (l : list GameObject) (c0 c1 c2 c3 : Quadtree)
          (obj : GameObject) : Quadtree -> Prop :=
| claimed0 c0' :
    ins c0 = Some (true, c0') ->
    delegated ins b c l c0 c1 c2 c3 obj (Split b c l c0' c1 c2 c3)
| claimed1 c1' :
    ins c0 = Some (false, c0) -> ins c1 = Some (true, c1') ->
    delegated ins b c l c0 c1 c2 c3 obj (Split b c l c0 c1' c2 c3)
| claimed2 c2' :
    ins c0 = Some (false, c0) -> ins c1 = Some (false, c1) ->
    ins c2 = Some (true, c2') ->
    delegated ins b c l c0 c1 c2 c3 obj (Split b c l c0 c1 c2' c3)
| claimed3 c3' :
    ins c0 = Some (false, c0) -> ins c1 = Some (false, c1) ->
    ins c2 = Some (false, c2) -> ins c3 = Some (true, c3') ->
    delegated ins b c l c0 c1 c2 c3 obj (Split b c l c0 c1 c2 c3')
| fallback :
    ins c0 = Some (false, c0) -> ins c1 = Some (false, c1) ->
    ins c2 = Some (false, c2) -> ins c3 = Some (false, c3) ->
    delegated ins b c l c0 c1 c2 c3 obj (Split b c (l ++ [obj]) c0 c1 c2 c3).

(** [appended obj t t']: [t'] is [t] where [obj] was appended to the list of
    exactly one node, the undivided nodes on the way to it having divided. *)
Inductive appended (obj : GameObject) : Quadtree -> Quadtree -> Prop :=
| appended_leaf b c l :
    appended obj (Leaf b c l) (Leaf b c (l ++ [obj]))
| appended_divide b c l t' :
    appended obj (subdivide (Leaf b c l)) t' ->
    appended obj (Leaf b c l) t'
| appended_here b c l c0 c1 c2 c3 :
    appended obj (Split b c l c0 c1 c2 c3) (Split b c (l ++ [obj]) c0 c1 c2 c3)
| appended_c0 b c l c0 c1 c2 c3 c0' :
    appended obj c0 c0' ->
    appended obj (Split b c l c0 c1 c2 c3) (Split b c l c0' c1 c2 c3)
| appended_c1 b c l c0 c1 c2 c3 c1' :
    appended obj c1 c1' ->
    appended obj (Split b c l c0 c1 c2 c3) (Split b c l c0 c1' c2 c3)
| appended_c2 b c l c0 c1 c2 c3 c2' :
    appended obj c2 c2' ->
    appended obj (Split b c l c0 c1 c2 c3) (Split b c l c0 c1 c2' c3)
| appended_c3 b c l c0 c1 c2 c3 c3' :
    appended obj c3 c3' ->
    appended obj (Split b c l c0 c1 c2 c3) (Split b c l c0 c1 c2 c3').

(** The nodes of a tree, the node itself first. *)
Fixpoint nodes (t : Quadtree) : list Quadtree :=
  t :: match t with
       | Leaf _ _ _ => []
       | Split _ _ _ c0 c1 c2 c3 =>
         nodes c0 ++ nodes c1 ++ nodes c2 ++ nodes c3
       end.

(** [built b c objs t]: [t] is the tree obtained from [Quadtree(b, c)] by the
    calls [insert(obj)] for the objects of [objs], in that order, each of
    which returned. *)
Inductive built (b : Rect) (c : Z) : list GameObject -> Quadtree -> Prop :=
| built_new : built b c [] (new_Quadtree b c)
| built_insert objs t fuel obj r t' :
    built b c objs t -> insert fuel t obj = Some (r, t') ->
    built b c (objs ++ [obj]) t'.

(** The test of [query] on an object of a node. *)
Definition hits (range : Rect) (obj : GameObject) : bool :=
  intersects range (bounds obj).

(** [a] lies strictly outside [b] along some axis: one of the four tests of
    [intersects] holds. *)
Definition strictly_outside (a b : Rect) : Prop :=
  F32.lt (F32.add (x a) (width a)) (x b) = true \/
  F32.lt (F32.add (y a) (height a)) (y b) = true \/
  F32.gt (x a) (F32.add (x b) (width b)) = true \/
  F32.gt (y a) (F32.add (y b) (height b)) = true.

(** The dividing lines of [subdivide]: [x + subWidth] and [y + subHeight]. *)
Definition mid_x (b : Rect) : float :=
  F32.add (x b) (F32.div (width b) F32.two).
Definition mid_y (b : Rect) : float :=
  F32.add (y b) (F32.div (height b) F32.two).

(** The point lies on a dividing line ([px == x + subWidth] or
    [py == y + subHeight]). *)
Definition on_divider (b : Rect) (px py : float) : Prop :=
  F32.eq px (mid_x b) = true \/ F32.eq py (mid_y b) = true.

(** The halves add up without rounding error: the dividing lines lie inside
    the boundary, and a half added to them gives the far edges [x + width]
    and [y + height]. *)
Definition halving_exact (b : Rect) : Prop :=
  (F32.le (x b) (mid_x b) = true /\
   F32.le (mid_x b) (F32.add (x b) (width b)) = true /\
   F32.add (mid_x b) (F32.div (width b) F32.two) = F32.add (x b) (width b)) /\
  (F32.le (y b) (mid_y b) = true /\
   F32.le (mid_y b) (F32.add (y b) (height b)) = true /\
   F32.add (mid_y b) (F32.div (height b) F32.two) = F32.add (y b) (height b)).

(** ** Inputs of the examples *)

(** The tree of [main] after the eight inserts. *)
Definition main_result : Quadtree :=
  match main_tree with
  | Some (_, t) => t
  | None => new_Quadtree worldBoundary 4
  end.

(** An object across the centre of the world of [main], and a range inside
    it, below and left of the centre. *)
Definition straddler : GameObject := mkGameObject 9 (rect 350 250 100 100).
Definition below_centre : Rect := rect 360 310 20 20.

(** A node of capacity 0 on the rectangle [{0,0,0,0}], and an object on the
    same rectangle. *)
Definition point_world : Quadtree := new_Quadtree (rect 0 0 0 0) 0.
Definition point_object : GameObject := mkGameObject 1 (rect 0 0 0 0).

(** The boundary of [children[0]] after [subdivide], the boundary reached
    by descending [k] times into [children[0]], and the test that an object
    intersects the [k] boundaries on the way. *)
Definition ne_quadrant (b : Rect) : Rect :=
  let '(ne, _, _, _) := quadrants b in ne.

Fixpoint iter_ne (k : nat) (b : Rect) : Rect :=
  match k with
  | O => b
  | S k => iter_ne k (ne_quadrant b)
  end.

Fixpoint intersects_down (k : nat) (b : Rect) (obj : GameObject) : bool :=
  match k with
  | O => true
  | S k => intersects b (bounds obj) && intersects_down k (ne_quadrant b) obj
  end.

(** An object that covers the world of [main]. *)
Definition cover : GameObject := mkGameObject 1 worldBoundary.

(** A world at x = 2^24, where [float] has no odd integers (the middle
    x + 1 of [{16777216, 0, 2, 2}] rounds to 16777216), and objects that
    touch its right edge. *)
Definition far_world : Rect := rect 16777216 0 2 2.
Definition edge_object (k : nat) : GameObject :=
  mkGameObject (Z.of_nat k) (rect 16777218 0 1 1).
Definition edge_objects (n : nat) : list GameObject :=
  map edge_object (seq 0 n).

(** An object of negative width in the world of [main]: it intersects the
    world and none of its quadrants. *)
Definition inverted : GameObject := mkGameObject 10 (rect 500 100 (-200) 10).

(** ** The Sierpinski triangle (drawSierpinski) *)

Module Sierpinski.

(** [double]: IEEE-754 binary64. *)
Definition double : Type := spec_float.
Definition add (a b : double) : double := SFadd 53 1024 a b.
Definition div (a b : double) : double := SFdiv 53 1024 a b.
Definition of_int (z : Z) : double := binary_normalize 53 1024 z 0 false.

Record Point : Type := mkPoint { x : double; y : double }.

(** A call [drawLine(p1, p2)]: the text it prints is determined by the two
    points, and the output of the program is the sequence of these calls. *)
Definition Line : Type := (Point * Point)%type.

Definition drawLine (p1 p2 : Point) (out : list Line) : list Line :=
  out ++ [(p1, p2)].

(** [midpoint]. *)
Definition midpoint (p1 p2 : Point) : Point :=
  mkPoint (div (add (x p1) (x p2)) (of_int 2))
          (div (add (y p1) (y p2)) (of_int 2)).

(** [drawSierpinski].  [depth] is an [int]; the call depth is bounded by
    [fuel], and [None] is a call that needs a deeper recursion. *)
Fixpoint drawSierpinski (fuel : nat) (p1 p2 p3 : Point) (depth : Z)
         (out : list Line) : option (list Line) :=
  match fuel with
  | O => None
  | S fuel =>
    if depth =? 0
    then Some (drawLine p3 p1 (drawLine p2 p3 (drawLine p1 p2 out)))
    else
      let m12 := midpoint p1 p2 in
      let m23 := midpoint p2 p3 in
      let m31 := midpoint p3 p1 in
      bind (drawSierpinski fuel p1 m12 m31 (depth - 1) out) (fun out =>
      bind (drawSierpinski fuel p2 m23 m12 (depth - 1) out) (fun out =>
      drawSierpinski fuel p3 m31 m23 (depth - 1) out))
  end.

(** The triangles at the bottom of [n] levels of subdivision, in the order
    in which they are drawn, and the three lines of a triangle. *)
Fixpoint triangles (n : nat) (p1 p2 p3 : Point)
  : list (Point * Point * Point) :=
  match n with
  | O => [(p1, p2, p3)]
  | S n =>
    triangles n p1 (midpoint p1 p2) (midpoint p3 p1) ++
    triangles n p2 (midpoint p2 p3) (midpoint p1 p2) ++
    triangles n p3 (midpoint p3 p1) (midpoint p2 p3)
  end.

Definition edges (t : Point * Point * Point) : list Line :=
  let '(p1, p2, p3) := t in [(p1, p2); (p2, p3); (p3, p1)].

(** The triangle and the depth of [main]. *)
Definition start_p1 : Point := mkPoint (of_int 100) (of_int 100).
Definition start_p2 : Point := mkPoint (of_int 50) (of_int 400).
Definition start_p3 : Point := mkPoint (of_int 350) (of_int 400).
Definition recursion_depth : Z := 4.

End Sierpinski.

(** ** The Julia set (julia_iterations and the colour of a pixel) *)

Module Julia.

(** The operations of [std::complex<double>] that [julia_iterations] uses:
    the product, the sum, and the test [std::norm(z) > 4.0]. *)
Record ComplexOps : Type := mkComplexOps {
  complex : Type;
  mul : complex -> complex -> complex;
  add : complex -> complex -> complex;
  norm_gt_4 : complex -> bool
}.

(** The loop of [julia_iterations] with [n] iterations left, at index [i]. *)
Fixpoint julia_loop (ops : ComplexOps) (c : complex ops) (max_iterations : Z)
         (n : nat) (i : Z) (z : complex ops) : Z :=
  match n with
  | O => max_iterations
  | S n =>
    let z := add ops (mul ops z z) c in
    if norm_gt_4 ops z then i
    else julia_loop ops c max_iterations n (i + 1) z
  end.

(** [julia_iterations]: the loop runs for [i] from 0 while
    [i < max_iterations]. *)
Definition julia_iterations (ops : ComplexOps) (c z0 : complex ops)
           (max_iterations : Z) : Z :=
  julia_loop ops c max_iterations (Z.to_nat max_iterations) 0 z0.

(** The value of [z] after [k] steps [z = z * z + c]. *)
Fixpoint orbit (ops : ComplexOps) (c z0 : complex ops) (k : nat)
  : complex ops :=
  match k with
  | O => z0
  | S k => let z := orbit ops c z0 k in add ops (mul ops z z) c
  end.

(** The colour that [main] gives a pixel: [int] arithmetic (the division
    truncates), the conversion to [unsigned char], and the components
    (red, green, blue) of [sf::Color]; black is (0, 0, 0). *)
Definition to_uchar (v : Z) : Z := v mod 256.

Definition pixel_color (iterations max_iterations : Z) : Z * Z * Z :=
  if iterations =? max_iterations then (0, 0, 0)
  else
    let color_value := to_uchar (Z.quot (iterations * 255) max_iterations) in
    (color_value, to_uchar (Z.quot color_value 2),
     to_uchar (Z.quot color_value 4)).

End Julia.

(** Complex numbers with integer parts, to run [julia_iterations] on. *)
Definition gauss_ops : Julia.ComplexOps :=
  Julia.mkComplexOps (Z * Z)
    (fun a b => (fst a * fst b - snd a * snd b, fst a * snd b + snd a * fst b))
    (fun a b => (fst a + fst b, snd a + snd b))
    (fun a => fst a * fst a + snd a * snd a >? 4).

(** ** Further notions *)

(** Every object stored below a node intersects the boundary of that node. *)
Fixpoint well_placed (t : Quadtree) : Prop :=
  Forall (fun obj => intersects (boundary t) (bounds obj) = true)
         (all_objects t) /\
  match t with
  | Leaf _ _ _ => True
  | Split _ _ _ c0 c1 c2 c3 =>
    well_placed c0 /\ well_placed c1 /\ well_placed c2 /\ well_placed c3
  end.

(** The range [r] covers the rectangle [o]: it starts no later and ends no
    earlier on both axes, the ends [x + width] and [y + height] being those
    that [intersects] computes. *)
Definition covers (r o : Rect) : Prop :=
  F32.le (x r) (x o) = true /\
  F32.le (F32.add (x o) (width o)) (F32.add (x r) (width r)) = true /\
  F32.le (y r) (y o) = true /\
  F32.le (F32.add (y o) (height o)) (F32.add (y r) (height r)) = true.

(** The ends of the rectangle do not lie before its origin. *)
Definition not_inverted (o : Rect) : Prop :=
  F32.lt (F32.add (x o) (width o)) (x o) = false /\
  F32.lt (F32.add (y o) (height o)) (y o) = false.

(** The children of every divided node have the boundaries that [subdivide]
    computes from the boundary of the node. *)
Fixpoint quadrant_shaped (t : Quadtree) : Prop :=
  match t with
  | Leaf _ _ _ => True
  | Split b _ _ c0 c1 c2 c3 =>
    (boundary c0, boundary c1, boundary c2, boundary c3) = quadrants b /\
    quadrant_shaped c0 /\ quadrant_shaped c1 /\
    quadrant_shaped c2 /\ quadrant_shaped c3
  end.

(** Every divided node holds at least [capacity] objects itself. *)
Fixpoint splits_full (t : Quadtree) : Prop :=
  match t with
  | Leaf _ _ _ => True
  | Split _ c l c0 c1 c2 c3 =>
    to_size_t c <= Z.of_nat (length l) /\
    splits_full c0 /\ splits_full c1 /\ splits_full c2 /\ splits_full c3
  end.

(** The objects of a list that a node of boundary [b] accepts. *)
Definition accepted (b : Rect) (objs : list GameObject) : list GameObject :=
  filter (fun obj => intersects b (bounds obj)) objs.


(** The smallest [int]. *)
Definition INT_MIN : Z := - 2 ^ 31.

Arguments intersects : simpl never.
Arguments contains : simpl never.
Arguments size_lt_capacity : simpl never.
Arguments size_le_capacity : simpl never.
Arguments quadrants : simpl never.
Arguments to_size_t : simpl never.

(** * Properties *)

(** ** Equations of [insert] *)

Lemma insert_outside fuel t obj :
  intersects (boundary t) (bounds obj) = false ->
  insert (S fuel) t obj = Some (false, t).
Proof. intros H. simpl. now rewrite H. Qed.

Lemma insert_room fuel b c l obj :
  intersects b (bounds obj) = true ->
  size_lt_capacity l c = true ->
  insert (S fuel) (Leaf b c l) obj = Some (true, Leaf b c (l ++ [obj])).
Proof. intros H1 H2. simpl. now rewrite H1, H2. Qed.

Lemma insert_full fuel b c l obj :
  intersects b (bounds obj) = true ->
  size_lt_capacity l c = false ->
  insert (S fuel) (Leaf b c l) obj =
  insert (S fuel) (subdivide (Leaf b c l)) obj.
Proof.
  intros H1 H2.
  cbn [insert boundary objects capacity divided negb andb].
  rewrite H1, H2. cbn [negb andb].
  unfold subdivide. cbn [boundary objects capacity].
  destruct (quadrants b) as [[[ne nw] se] sw].
  cbn [boundary objects capacity divided negb andb].
  rewrite H1, andb_false_r. reflexivity.
Qed.

(** A call that returns [false] has rejected the object at the first test
    and left the node as it was. *)
Lemma insert_false_inv fuel t obj t' :
  insert fuel t obj = Some (false, t') ->
  intersects (boundary t) (bounds obj) = false /\ t' = t.
Proof.
  destruct fuel as [|fuel]; [discriminate|]. simpl.
  destruct (intersects (boundary t) (bounds obj)); simpl.
  2:{ intros [= <-]. now split. }
  destruct (size_lt_capacity (objects t) (capacity t) && negb (divided t));
    [discriminate|].
  destruct (if negb (divided t) then subdivide t else t)
    as [|b c l c0 c1 c2 c3]; [discriminate|].
  destruct (insert fuel c0 obj) as [[[] ?]|]; simpl; try discriminate.
  destruct (insert fuel c1 obj) as [[[] ?]|]; simpl; try discriminate.
  destruct (insert fuel c2 obj) as [[[] ?]|]; simpl; try discriminate.
  destruct (insert fuel c3 obj) as [[[] ?]|]; simpl; discriminate.
Qed.

(** The step of [insert] at a divided node. *)
Lemma insert_Split_inv fuel b c l c0 c1 c2 c3 obj r t' :
  insert (S fuel) (Split b c l c0 c1 c2 c3) obj = Some (r, t') ->
  (intersects b (bounds obj) = false /\ r = false /\
   t' = Split b c l c0 c1 c2 c3) \/
  (intersects b (bounds obj) = true /\ r = true /\
   delegated (fun ch => insert fuel ch obj) b c l c0 c1 c2 c3 obj t').
Proof.
  simpl. destruct (intersects b (bounds obj)); simpl.
  2:{ intros [= <- <-]. now left. }
  rewrite andb_false_r. intros H. right. split; [reflexivity|].
  destruct (insert fuel c0 obj) as [[[] c0']|] eqn:E0; simpl in H;
    try discriminate.
  { injection H as <- <-. split; [reflexivity|]. now apply claimed0 with (c0' := c0'). }
  apply insert_false_inv in E0 as E0'. destruct E0' as [_ ->].
  destruct (insert fuel c1 obj) as [[[] c1']|] eqn:E1; simpl in H;
    try discriminate.
  { injection H as <- <-. split; [reflexivity|]. now apply claimed1. }
  apply insert_false_inv in E1 as E1'. destruct E1' as [_ ->].
  destruct (insert fuel c2 obj) as [[[] c2']|] eqn:E2; simpl in H;
    try discriminate.
  { injection H as <- <-. split; [reflexivity|]. now apply claimed2. }
  apply insert_false_inv in E2 as E2'. destruct E2' as [_ ->].
  destruct (insert fuel c3 obj) as [[[] c3']|] eqn:E3; simpl in H;
    try discriminate.
  { injection H as <- <-. split; [reflexivity|]. now apply claimed3. }
  apply insert_false_inv in E3 as E3'. destruct E3' as [_ ->].
  injection H as <- <-. split; [reflexivity|]. now apply fallback.
Qed.

(** Conversely, a disposal computed from the children is what [insert]
    returns at a divided node that the object intersects. *)
Lemma insert_Split_delegated fuel b c l c0 c1 c2 c3 obj t' :
  intersects b (bounds obj) = true ->
  delegated (fun ch => insert fuel ch obj) b c l c0 c1 c2 c3 obj t' ->
  insert (S fuel) (Split b c l c0 c1 c2 c3) obj = Some (true, t').
Proof.
  intros Hi D. simpl. rewrite Hi, andb_false_r. simpl.
  destruct D as [c0' E0|c1' E0 E1|c2' E0 E1 E2|c3' E0 E1 E2 E3|E0 E1 E2 E3];
    rewrite ?E0; simpl; rewrite ?E1; simpl; rewrite ?E2; simpl;
    rewrite ?E3; simpl; reflexivity.
Qed.

(** The step of [insert] at an undivided node. *)
Lemma insert_Leaf_inv fuel b c l obj r t' :
  insert (S fuel) (Leaf b c l) obj = Some (r, t') ->
  (intersects b (bounds obj) = false /\ r = false /\ t' = Leaf b c l) \/
  (intersects b (bounds obj) = true /\ size_lt_capacity l c = true /\
   r = true /\ t' = Leaf b c (l ++ [obj])) \/
  (intersects b (bounds obj) = true /\ size_lt_capacity l c = false /\
   r = true /\
   let '(ne, nw, se, sw) := quadrants b in
   delegated (fun ch => insert fuel ch obj) b c l
             (new_Quadtree ne c) (new_Quadtree nw c)
             (new_Quadtree se c) (new_Quadtree sw c) obj t').
Proof.
  destruct (intersects b (bounds obj)) eqn:Hi.
  2:{ rewrite insert_outside by exact Hi. intros [= <- <-]. now left. }
  destruct (size_lt_capacity l c) eqn:Hs.
  { rewrite insert_room by assumption. intros [= <- <-]. right. now left. }
  rewrite insert_full by assumption. unfold subdivide. simpl boundary.
  destruct (quadrants b) as [[[ne nw] se] sw]. simpl capacity. simpl objects.
  intros H. apply insert_Split_inv in H.
  destruct H as [(H & _)|(_ & -> & D)]; [congruence|].
  right. right. auto.
Qed.

(** ** Induction on the calls of [insert] *)

Section InsertInd.

Variable P : Quadtree -> GameObject -> bool -> Quadtree -> Prop.

Hypothesis P_outside : forall t obj,
    intersects (boundary t) (bounds obj) = false -> P t obj false t.
Hypothesis P_room : forall b c l obj,
    intersects b (bounds obj) = true -> size_lt_capacity l c = true ->
    P (Leaf b c l) obj true (Leaf b c (l ++ [obj])).
Hypothesis P_full : forall b c l obj t',
    intersects b (bounds obj) = true -> size_lt_capacity l c = false ->
    P (subdivide (Leaf b c l)) obj true t' -> P (Leaf b c l) obj true t'.
Hypothesis P_claimed0 : forall b c l c0 c1 c2 c3 obj c0',
    intersects b (bounds obj) = true ->
    P c0 obj true c0' ->
    P (Split b c l c0 c1 c2 c3) obj true (Split b c l c0' c1 c2 c3).
Hypothesis P_claimed1 : forall b c l c0 c1 c2 c3 obj c1',
    intersects b (bounds obj) = true ->
    intersects (boundary c0) (bounds obj) = false ->
    P c1 obj true c1' ->
    P (Split b c l c0 c1 c2 c3) obj true (Split b c l c0 c1' c2 c3).
Hypothesis P_claimed2 : forall b c l c0 c1 c2 c3 obj c2',
    intersects b (bounds obj) = true ->
    intersects (boundary c0) (bounds obj) = false ->
    intersects (boundary c1) (bounds obj) = false ->
    P c2 obj true c2' ->
    P (Split b c l c0 c1 c2 c3) obj true (Split b c l c0 c1 c2' c3).
Hypothesis P_claimed3 : forall b c l c0 c1 c2 c3 obj c3',
    intersects b (bounds obj) = true ->
    intersects (boundary c0) (bounds obj) = false ->
    intersects (boundary c1) (bounds obj) = false ->
    intersects (boundary c2) (bounds obj) = false ->
    P c3 obj true c3' ->
    P (Split b c l c0 c1 c2 c3) obj true (Split b c l c0 c1 c2 c3').
Hypothesis P_fallback : forall b c l c0 c1 c2 c3 obj,
    intersects b (bounds obj) = true ->
    intersects (boundary c0) (bounds obj) = false ->
    intersects (boundary c1) (bounds obj) = false ->
    intersects (boundary c2) (bounds obj) = false ->
    intersects (boundary c3) (bounds obj) = false ->
    P (Split b c l c0 c1 c2 c3) obj true (Split b c (l ++ [obj]) c0 c1 c2 c3).

Lemma insert_ind : forall fuel t obj r t',
    insert fuel t obj = Some (r, t') -> P t obj r t'.
Proof.
  induction fuel as [|fuel IH]; intros t obj r t' H; [discriminate|].
  assert (Hsplit : forall b c l c0 c1 c2 c3 t'',
             intersects b (bounds obj) = true ->
             delegated (fun ch => insert fuel ch obj) b c l c0 c1 c2 c3 obj t'' ->
             P (Split b c l c0 c1 c2 c3) obj true t'').
  { intros b c l c0 c1 c2 c3 t'' Hi D.
    destruct D as [c0' E0|c1' E0 E1|c2' E0 E1 E2|c3' E0 E1 E2 E3|E0 E1 E2 E3];
      repeat match goal with
             | E : insert fuel _ obj = Some (false, _) |- _ =>
               apply insert_false_inv in E; destruct E as [E _]
             | E : insert fuel _ obj = Some (true, _) |- _ =>
               apply IH in E
             end; eauto. }
  destruct t as [b c l|b c l c0 c1 c2 c3].
  - apply insert_Leaf_inv in H.
    destruct H as [(Hi & -> & ->)|[(Hi & Hs & -> & ->)|(Hi & Hs & -> & D)]].
    + now apply P_outside.
    + now apply P_room.
    + apply P_full; try assumption. unfold subdivide. simpl boundary.
      destruct (quadrants b) as [[[ne nw] se] sw]. now apply Hsplit.
  - apply insert_Split_inv in H.
    destruct H as [(Hi & -> & ->)|(Hi & -> & D)].
    + now apply P_outside.
    + now apply Hsplit.
Qed.

End InsertInd.

(** ** Basic facts about [insert] *)

Lemma all_objects_subdivide t : all_objects (subdivide t) = objects t.
Proof.
  unfold subdivide. destruct (quadrants (boundary t)) as [[[ne nw] se] sw].
  simpl. now rewrite app_nil_r.
Qed.

Lemma all_objects_Leaf b c l : all_objects (Leaf b c l) = l.
Proof. reflexivity. Qed.

(** [insert] keeps the boundary and the capacity of the node. *)
Lemma insert_boundary_capacity fuel t obj r t' :
  insert fuel t obj = Some (r, t') ->
  boundary t' = boundary t /\ capacity t' = capacity t.
Proof.
  revert fuel t obj r t'.
  apply insert_ind; intros; simpl; auto.
Qed.

(** A call that returns [true] was on a node the object intersects, and
    added exactly one entry, the object, to the lists of the subtree. *)
Lemma insert_true_inv fuel t obj t' :
  insert fuel t obj = Some (true, t') ->
  intersects (boundary t) (bounds obj) = true /\
  Permutation (all_objects t') (obj :: all_objects t).
Proof.
  intros H.
  enough (G : forall fuel t obj r t',
             insert fuel t obj = Some (r, t') -> r = true ->
             intersects (boundary t) (bounds obj) = true /\
             Permutation (all_objects t') (obj :: all_objects t))
    by (eapply G; eauto).
  clear.
  apply (insert_ind (fun t obj r t' =>
           r = true ->
           intersects (boundary t) (bounds obj) = true /\
           Permutation (all_objects t') (obj :: all_objects t)));
    intros; try discriminate; simpl;
    (split; [assumption|]);
    repeat match goal with
           | H : true = true -> _ |- _ => specialize (H eq_refl); destruct H
           end.
  - rewrite Permutation_app_comm. reflexivity.
  - rewrite all_objects_subdivide in *. assumption.
  - rewrite H2. simpl. now repeat rewrite <- Permutation_middle.
  - rewrite H3. simpl. now repeat rewrite <- Permutation_middle.
  - rewrite H4. simpl. now repeat rewrite <- Permutation_middle.
  - rewrite H5. simpl. now repeat rewrite <- Permutation_middle.
  - rewrite <- app_assoc. simpl. now repeat rewrite <- Permutation_middle.
Qed.

(** More fuel does not change the result of a call that returned. *)
Lemma delegated_mono (ins ins' : Quadtree -> option (bool * Quadtree))
      b c l c0 c1 c2 c3 obj t' :
  (forall ch res, ins ch = Some res -> ins' ch = Some res) ->
  delegated ins b c l c0 c1 c2 c3 obj t' ->
  delegated ins' b c l c0 c1 c2 c3 obj t'.
Proof.
  intros M D.
  destruct D; [eapply claimed0|eapply claimed1|eapply claimed2
               |eapply claimed3|eapply fallback]; eauto.
Qed.

Lemma insert_mono : forall fuel fuel' t obj res,
    insert fuel t obj = Some res -> (fuel <= fuel')%nat ->
    insert fuel' t obj = Some res.
Proof.
  induction fuel as [|fuel IH]; intros fuel' t obj [r t'] H Hle;
    [discriminate|].
  destruct fuel' as [|fuel']; [lia|].
  assert (M : forall ch res, insert fuel ch obj = Some res ->
                             insert fuel' ch obj = Some res)
    by (intros; eapply IH; eauto; lia).
  destruct t as [b c l|b c l c0 c1 c2 c3].
  - apply insert_Leaf_inv in H.
    destruct H as [(Hi & -> & ->)|[(Hi & Hs & -> & ->)|(Hi & Hs & -> & D)]].
    + now apply insert_outside.
    + now apply insert_room.
    + rewrite insert_full by assumption. unfold subdivide. simpl boundary.
      destruct (quadrants b) as [[[ne nw] se] sw]. cbv beta iota in D.
      apply insert_Split_delegated; [assumption|].
      eapply delegated_mono; [exact M|exact D].
  - apply insert_Split_inv in H.
    destruct H as [(Hi & -> & ->)|(Hi & -> & D)].
    + now apply insert_outside.
    + apply insert_Split_delegated; [assumption|].
      eapply delegated_mono; [exact M|exact D].
Qed.

(** A divided node returns as soon as its four children do. *)
Lemma insert_Split_total fuel b c l c0 c1 c2 c3 obj :
  (exists r t', insert fuel c0 obj = Some (r, t')) ->
  (exists r t', insert fuel c1 obj = Some (r, t')) ->
  (exists r t', insert fuel c2 obj = Some (r, t')) ->
  (exists r t', insert fuel c3 obj = Some (r, t')) ->
  exists r t', insert (S fuel) (Split b c l c0 c1 c2 c3) obj = Some (r, t').
Proof.
  intros (r0 & t0 & E0) (r1 & t1 & E1) (r2 & t2 & E2) (r3 & t3 & E3).
  simpl. destruct (intersects b (bounds obj)); simpl; [|eauto].
  rewrite andb_false_r, E0. simpl. destruct r0; [eauto|].
  rewrite E1. simpl. destruct r1; [eauto|].
  rewrite E2. simpl. destruct r2; [eauto|].
  rewrite E3. simpl. destruct r3; eauto.
Qed.

Lemma size_lt_capacity_nil c : cap_pos c -> size_lt_capacity [] c = true.
Proof. unfold cap_pos, size_lt_capacity. simpl. intros H. now apply Z.ltb_lt. Qed.

(** An empty node of non-zero capacity answers in one call. *)
Lemma insert_new fuel q c obj :
  cap_pos c ->
  exists r t', insert (S fuel) (new_Quadtree q c) obj = Some (r, t').
Proof.
  intros Hc. unfold new_Quadtree.
  destruct (intersects q (bounds obj)) eqn:Hi.
  - rewrite insert_room; eauto using size_lt_capacity_nil.
  - rewrite insert_outside; eauto.
Qed.

(** Where no node has capacity zero, [insert] returns, and its recursion is
    no deeper than the tree plus the one level a subdivision adds. *)
Lemma insert_terminates t obj :
  caps_ok t ->
  forall fuel, (depth t + 2 <= fuel)%nat ->
               exists r t', insert fuel t obj = Some (r, t').
Proof.
  induction t as [b c l|b c l c0 IH0 c1 IH1 c2 IH2 c3 IH3];
    simpl; intros Hc fuel Hf.
  - destruct fuel as [|[|fuel]]; try lia.
    destruct (intersects b (bounds obj)) eqn:Hi.
    2:{ rewrite insert_outside; eauto. }
    destruct (size_lt_capacity l c) eqn:Hs.
    { rewrite insert_room; eauto. }
    rewrite insert_full by assumption. unfold subdivide. simpl boundary.
    destruct (quadrants b) as [[[ne nw] se] sw].
    apply insert_Split_total; now apply insert_new.
  - destruct Hc as (_ & H0 & H1 & H2 & H3).
    destruct fuel as [|fuel]; [lia|].
    apply insert_Split_total; [apply IH0|apply IH1|apply IH2|apply IH3];
      try assumption; lia.
Qed.

(** [insert] creates nodes of the capacity of the node it divides. *)
Lemma insert_caps_all c fuel t obj r t' :
  insert fuel t obj = Some (r, t') -> caps_all c t -> caps_all c t'.
Proof.
  revert fuel t obj r t'.
  apply (insert_ind (fun t obj r t' => caps_all c t -> caps_all c t'));
    intros; simpl in *; tauto.
Qed.

Lemma caps_all_ok c t : cap_pos c -> caps_all c t -> caps_ok t.
Proof.
  intros Hc. induction t; simpl; [intros ->; assumption|].
  intros (-> & ? & ? & ? & ?). tauto.
Qed.

Lemma cap_pos_int c : 1 <= c -> c <= INT_MAX -> cap_pos c.
Proof.
  unfold cap_pos, to_size_t, INT_MAX. intros H1 H2.
  rewrite Z.mod_small; lia.
Qed.

Lemma to_size_t_nonneg c : 0 <= c -> c <= INT_MAX -> to_size_t c = c.
Proof.
  unfold to_size_t, INT_MAX. intros H1 H2. apply Z.mod_small. lia.
Qed.

(** [insert] keeps [objects.size() <= capacity] at the undivided nodes. *)
Lemma insert_leaves_within_capacity fuel t obj r t' :
  insert fuel t obj = Some (r, t') ->
  leaves_within_capacity t -> leaves_within_capacity t'.
Proof.
  revert fuel t obj r t'.
  apply (insert_ind (fun t obj r t' =>
           leaves_within_capacity t -> leaves_within_capacity t'));
    intros; simpl in *; try tauto.
  - unfold size_lt_capacity, size_le_capacity in *.
    rewrite length_app. simpl. apply Z.leb_le. apply Z.ltb_lt in H0. lia.
  - apply H1. unfold subdivide. destruct (quadrants b) as [[[ne nw] se] sw].
    simpl. unfold size_le_capacity, to_size_t. simpl.
    assert (0 <= c mod 2 ^ 64) by (apply Z.mod_pos_bound; lia).
    repeat split; now apply Z.leb_le.
Qed.

Lemma insert_all_built b c fuel : forall objs t objs0 rs t',
    built b c objs0 t -> insert_all fuel t objs = Some (rs, t') ->
    built b c (objs0 ++ objs) t'.
Proof.
  induction objs as [|obj objs IH]; simpl; intros t objs0 rs t' B H.
  - injection H as <- <-. now rewrite app_nil_r.
  - destruct (insert fuel t obj) as [[r t1]|] eqn:E; simpl in H; [|discriminate].
    destruct (insert_all fuel t1 objs) as [[rs1 t2]|] eqn:E'; simpl in H;
      [|discriminate].
    injection H as <- <-.
    change (obj :: objs) with ([obj] ++ objs). rewrite app_assoc.
    eapply IH; [|exact E']. eapply built_insert; eauto.
Qed.

Lemma built_caps_all b c objs t : built b c objs t -> caps_all c t.
Proof.
  induction 1; [reflexivity|]. eapply insert_caps_all; eauto.
Qed.

Lemma built_leaves_within_capacity b c objs t :
  built b c objs t -> leaves_within_capacity t.
Proof.
  induction 1.
  - simpl. unfold size_le_capacity, to_size_t. simpl. apply Z.leb_le.
    apply Z.mod_pos_bound. lia.
  - eapply insert_leaves_within_capacity; eauto.
Qed.

(** The objects stored in a built tree are among those inserted, each as
    often as it was inserted with result [true] at most. *)
Lemma built_NoDup b c objs t :
  built b c objs t -> NoDup objs ->
  NoDup (all_objects t) /\ incl (all_objects t) objs.
Proof.
  induction 1 as [|objs t fuel obj r t' B IH E]; intros ND.
  - split; [constructor|]. intros o [].
  - apply NoDup_remove in ND. rewrite app_nil_r in ND. destruct ND as [ND Hn].
    destruct (IH ND) as [IH1 IH2]. destruct r.
    + apply insert_true_inv in E. destruct E as [_ E].
      split.
      * apply (Permutation_NoDup (Permutation_sym E)).
        constructor; [|assumption]. intros Hin. apply Hn. now apply IH2.
      * intros o Ho. apply (Permutation_in _ E) in Ho. apply in_or_app.
        destruct Ho as [->|Ho]; [right; now left|left; now apply IH2].
    + apply insert_false_inv in E. destruct E as [_ ->].
      split; [assumption|]. intros o Ho. apply in_or_app. left. now apply IH2.
Qed.

(** ** Facts about [query] *)

Lemma query_objects_filter range : forall l found,
    query_objects range l found = found ++ filter (hits range) l.
Proof.
  induction l as [|obj l IH]; simpl; intros found.
  - now rewrite app_nil_r.
  - rewrite IH. unfold hits at 2. destruct (intersects range (bounds obj)).
    + now rewrite <- app_assoc.
    + reflexivity.
Qed.

(** [query] only appends to [found]. *)
Lemma query_app : forall t range found,
    query t range found = found ++ query t range [].
Proof.
  induction t as [b c l|b c l c0 IH0 c1 IH1 c2 IH2 c3 IH3];
    intros range found; simpl.
  - destruct (intersects b range); simpl; [|now rewrite app_nil_r].
    now rewrite !query_objects_filter.
  - destruct (intersects b range); simpl; [|now rewrite app_nil_r].
    rewrite !query_objects_filter. simpl.
    rewrite (IH3 range (query c2 _ _)), (IH2 range (query c1 _ _)),
      (IH1 range (query c0 _ _)), (IH0 range (found ++ _)).
    rewrite (IH3 range (query c2 _ _)), (IH2 range (query c1 _ _)),
      (IH1 range (query c0 _ _)), (IH0 range (filter _ _)).
    now rewrite <- !app_assoc.
Qed.

(** The result of [query] on an empty vector, node by node. *)
Lemma query_nil_eq t range :
  query t range [] =
  if intersects (boundary t) range
  then filter (hits range) (objects t) ++
       concat (map (fun ch => query ch range []) (children t))
  else [].
Proof.
  destruct t as [b c l|b c l c0 c1 c2 c3]; simpl.
  - destruct (intersects b range); simpl; [|reflexivity].
    rewrite query_objects_filter. simpl. now rewrite app_nil_r.
  - destruct (intersects b range); simpl; [|reflexivity].
    rewrite query_objects_filter. simpl.
    rewrite (query_app c3), (query_app c2), (query_app c1), (query_app c0).
    now rewrite app_nil_r, <- !app_assoc.
Qed.

(** Every object found is stored in the tree and passes the test against
    the range. *)
Lemma query_In : forall t range obj,
    In obj (query t range []) ->
    In obj (all_objects t) /\ intersects range (bounds obj) = true.
Proof.
  induction t as [b c l|b c l c0 IH0 c1 IH1 c2 IH2 c3 IH3];
    intros range obj; rewrite query_nil_eq;
    destruct (intersects _ range); simpl; try tauto;
    rewrite ?app_nil_r, ?in_app_iff, ?filter_In; unfold hits.
  - tauto.
  - intros [H|[H|[H|[H|H]]]];
      [|apply IH0 in H|apply IH1 in H|apply IH2 in H|apply IH3 in H]; tauto.
Qed.

Lemma NoDup_app_incl {A} (l1 l2 l1' l2' : list A) :
  NoDup (l1 ++ l2) -> NoDup l1' -> NoDup l2' ->
  incl l1' l1 -> incl l2' l2 -> NoDup (l1' ++ l2').
Proof.
  intros H H1 H2 I1 I2.
  induction l1' as [|a l1' IH]; simpl; [assumption|].
  inversion H1; subst. constructor.
  - rewrite in_app_iff. intros [Hin|Hin]; [contradiction|].
    assert (Ha : In a l1) by (apply I1; now left).
    apply I2 in Hin. apply in_split in Ha. destruct Ha as (u & v & ->).
    rewrite <- app_assoc in H. simpl in H. apply NoDup_remove_2 in H.
    apply H. rewrite !in_app_iff. auto.
  - apply IH; [assumption|]. intros o Ho. apply I1. now right.
Qed.

Lemma NoDup_app_l {A} (l1 l2 : list A) : NoDup (l1 ++ l2) -> NoDup l1.
Proof.
  induction l1 as [|a l1 IH]; simpl; intros H; [constructor|].
  inversion H; subst. constructor; [|auto].
  intros Hin. apply H2. apply in_or_app. now left.
Qed.

Lemma NoDup_app_r {A} (l1 l2 : list A) : NoDup (l1 ++ l2) -> NoDup l2.
Proof.
  induction l1 as [|a l1 IH]; simpl; intros H; [assumption|].
  inversion H; subst. auto.
Qed.

(** Where no object is stored twice, none is found twice. *)
Lemma query_NoDup : forall t range,
    NoDup (all_objects t) -> NoDup (query t range []).
Proof.
  assert (I : forall t range, incl (query t range []) (all_objects t))
    by (intros t range o Ho; now apply query_In in Ho).
  induction t as [b c l|b c l c0 IH0 c1 IH1 c2 IH2 c3 IH3];
    intros range ND; rewrite query_nil_eq;
    destruct (intersects _ range); simpl; try constructor;
    rewrite ?app_nil_r.
  - now apply NoDup_filter.
  - simpl in ND.
    assert (N0 := NoDup_app_r _ _ ND).
    assert (N1 := NoDup_app_r _ _ N0).
    assert (N2 := NoDup_app_r _ _ N1).
    assert (N3 := NoDup_app_r _ _ N2).
    eapply NoDup_app_incl; [exact ND| | | |].
    + apply NoDup_filter. eapply NoDup_app_l; eauto.
    + eapply NoDup_app_incl; [exact N0| | | |].
      * apply IH0. eapply NoDup_app_l; eauto.
      * eapply NoDup_app_incl; [exact N1| | | |].
        -- apply IH1. eapply NoDup_app_l; eauto.
        -- eapply NoDup_app_incl; [exact N2| | | |]; auto.
           apply IH2. eapply NoDup_app_l; eauto.
        -- apply I.
        -- apply incl_app; [apply incl_appl|apply incl_appr]; apply I.
      * apply I.
      * repeat (apply incl_app; [apply incl_appl; apply I|apply incl_appr]).
        apply I.
    + intros o Ho. apply filter_In in Ho. tauto.
    + repeat (apply incl_app; [apply incl_appl; apply I|apply incl_appr]).
      apply I.
Qed.

(** ** Rect::intersects *)

Lemma intersects_sym a b : intersects a b = intersects b a.
Proof.
  unfold intersects, F32.gt, F32.lt. f_equal.
  destruct (SFltb (F32.add (x a) (width a)) (x b)),
    (SFltb (F32.add (y a) (height a)) (y b)),
    (SFltb (F32.add (x b) (width b)) (x a)),
    (SFltb (F32.add (y b) (height b)) (y a)); reflexivity.
Qed.

Lemma intersects_false_iff a b :
  intersects a b = false <-> strictly_outside a b.
Proof.
  unfold intersects, strictly_outside.
  rewrite negb_false_iff, !orb_true_iff. tauto.
Qed.

(** * The claims *)

(** ** C1 *)

(** C1 (fails on the code).  In the world [{0,0,800,600}] with capacity 4,
    after [obj1] to [obj4] the object [{350,250,100,100}], which lies across
    the centre, is inserted with result [true] and is kept by the north-east
    child, the first one it intersects; the range [{360,310,20,20}] lies
    inside the object and in the south-west quadrant only, so [query] skips
    the north-east child and returns nothing: an inserted object whose
    bounds intersect the range is missing from the result. *)
Theorem query_misses_inserted_object :
  exists t,
    insert_all 3 (new_Quadtree worldBoundary 4)
               [obj1; obj2; obj3; obj4; straddler]
    = Some ([true; true; true; true; true], t) /\
    intersects (bounds straddler) below_centre = true /\
    In straddler (all_objects t) /\
    query t below_centre [] = [].
Proof.
  eexists. split; [vm_compute; reflexivity|].
  split; [vm_compute; reflexivity|].
  split; [|vm_compute; reflexivity].
  vm_compute. tauto.
Qed.

(** ** C2 *)

(** C2 (fails on the code).  In the scenario of [main] the eight inserts
    return [true]; [query({280,200,100,100})] returns the objects 4 and 5
    only, although the bounds of object 7 intersect that range (they touch
    it at x = 380): object 7 is stored in the north-east child, whose
    boundary starts at x = 400, beyond the range.  [query({0,0,100,100})]
    returns object 1 alone, as the claim says. *)
Theorem main_scenario_queries :
  exists t,
    main_tree = Some ([true; true; true; true; true; true; true; true], t) /\
    map id (query t queryRange []) = [4; 5] /\
    filter (hits queryRange) main_objects = [obj4; obj5; obj7] /\
    map id (query t playerView []) = [1] /\
    filter (hits playerView) main_objects = [obj1].
Proof.
  eexists. split; [vm_compute; reflexivity|].
  repeat split; vm_compute; reflexivity.
Qed.

(** ** C3 *)

(** C3.  Whatever the tree and the range, every object that [query(range)]
    adds to [found] has bounds that intersect the range (in either order of
    the two rectangles). *)
Theorem query_sound t range found obj :
  In obj (query t range found) ->
  In obj found \/
  (intersects (bounds obj) range = true /\
   intersects range (bounds obj) = true).
Proof.
  rewrite query_app, in_app_iff. intros [H|H]; [now left|right].
  apply query_In in H. destruct H as [_ H].
  split; [now rewrite intersects_sym|assumption].
Qed.

Lemma query_sound_witness :
  In obj4 (query (Leaf worldBoundary 4 [obj1; obj4]) queryRange []) /\
  (In obj4 [] \/
   (intersects (bounds obj4) queryRange = true /\
    intersects queryRange (bounds obj4) = true)).
Proof.
  assert (H : In obj4 (query (Leaf worldBoundary 4 [obj1; obj4]) queryRange []))
    by (vm_compute; tauto).
  split; [exact H|].
  exact (query_sound (Leaf worldBoundary 4 [obj1; obj4]) queryRange [] obj4 H).
Defined.

(** ** C4 *)

(** The result of a call that returns is the outcome of the first test. *)
Lemma insert_returns_intersects fuel t obj r t' :
  insert fuel t obj = Some (r, t') ->
  r = intersects (boundary t) (bounds obj).
Proof.
  destruct r; intros H.
  - apply insert_true_inv in H. now destruct H as [-> _].
  - apply insert_false_inv in H. now destruct H as [-> _].
Qed.

Lemma insert_deterministic fuel fuel' t obj res res' :
  insert fuel t obj = Some res -> insert fuel' t obj = Some res' -> res = res'.
Proof.
  intros H H'.
  apply insert_mono with (fuel' := Nat.max fuel fuel') in H; [|lia].
  apply insert_mono with (fuel' := Nat.max fuel fuel') in H'; [|lia].
  congruence.
Qed.

(** A full node of capacity 0 that the object intersects calls [insert] on
    [children[0]], a node of capacity 0 again. *)
Lemma capacity_zero_step fuel b obj :
  intersects b (bounds obj) = true ->
  insert fuel (new_Quadtree (ne_quadrant b) 0) obj = None ->
  insert (S fuel) (new_Quadtree b 0) obj = None.
Proof.
  intros Hi H. unfold new_Quadtree in *.
  rewrite insert_full by (assumption || reflexivity).
  unfold subdivide, ne_quadrant in *. cbn [boundary capacity objects] in *.
  destruct (quadrants b) as [[[ne nw] se] sw].
  cbn [insert boundary objects capacity divided negb andb].
  rewrite Hi, andb_false_r. cbn [negb].
  unfold new_Quadtree. rewrite H. reflexivity.
Qed.

Lemma capacity_zero_fixed b obj :
  ne_quadrant b = b -> intersects b (bounds obj) = true ->
  forall fuel, insert fuel (new_Quadtree b 0) obj = None.
Proof.
  intros Hb Hi. induction fuel as [|fuel IH]; [reflexivity|].
  apply capacity_zero_step; [assumption|]. now rewrite Hb.
Qed.

Lemma capacity_zero_descent obj : forall k b,
    intersects_down k b obj = true ->
    (forall fuel, insert fuel (new_Quadtree (iter_ne k b) 0) obj = None) ->
    forall fuel, insert fuel (new_Quadtree b 0) obj = None.
Proof.
  induction k as [|k IH]; intros b Hd H; [exact H|].
  simpl in Hd. apply andb_true_iff in Hd. destruct Hd as [Hi Hd].
  intros [|fuel]; [reflexivity|].
  apply capacity_zero_step; [assumption|]. now apply IH.
Qed.

(** C4 (as stated, fails for a node of capacity 0).  The node
    [Quadtree({0,0,0,0}, 0)] intersects the object [{0,0,0,0}], but the call
    [insert] never returns: the node has no room, divides into four children
    equal to itself and calls [insert] on the first of them. *)
Lemma insert_capacity_zero_never_returns :
  intersects (boundary point_world) (bounds point_object) = true /\
  forall fuel, insert fuel point_world point_object = None.
Proof.
  split; [vm_compute; reflexivity|].
  apply capacity_zero_fixed; vm_compute; reflexivity.
Qed.

(** The same in the world of [main] with capacity 0 and an object that
    covers the world: the calls descend into [children[0]] for ever; after
    160 levels the width and the height have become 0 and the node
    [{800,0,0,0}] repeats itself. *)
Example insert_capacity_zero_main_world :
  intersects worldBoundary (bounds cover) = true /\
  forall fuel, insert fuel (new_Quadtree worldBoundary 0) cover = None.
Proof.
  split; [vm_compute; reflexivity|].
  apply (capacity_zero_descent cover 160); [vm_compute; reflexivity|].
  apply capacity_zero_fixed; vm_compute; reflexivity.
Qed.

(** C4 (amended).  At a node none of whose nodes has capacity 0, [insert]
    returns, with a recursion no deeper than the tree plus two; it returns
    [false] exactly when the bounds of the object do not intersect the
    boundary of the node, and then the tree is unchanged; when they do
    intersect it returns [true] and the subtree holds one more entry, the
    object.  (At any node, a call that returns [false] is one whose object
    does not intersect the boundary.) *)
Theorem insert_result t obj :
  caps_ok t ->
  exists t',
    (forall fuel, (depth t + 2 <= fuel)%nat ->
       insert fuel t obj = Some (intersects (boundary t) (bounds obj), t')) /\
    (forall fuel r t'',
       insert fuel t obj = Some (r, t'') ->
       r = intersects (boundary t) (bounds obj) /\ t'' = t') /\
    (intersects (boundary t) (bounds obj) = false -> t' = t) /\
    (intersects (boundary t) (bounds obj) = true ->
       Permutation (all_objects t') (obj :: all_objects t)).
Proof.
  intros Hc.
  destruct (insert_terminates t obj Hc (depth t + 2) (le_n _)) as (r & t' & E).
  assert (Hr := insert_returns_intersects _ _ _ _ _ E). subst r.
  exists t'. repeat split.
  - intros fuel Hf. eapply insert_mono; eauto.
  - eapply insert_returns_intersects; eauto.
  - pose proof (insert_deterministic _ _ _ _ _ _ E H). congruence.
  - intros Hi. rewrite Hi in E. now apply insert_false_inv in E.
  - intros Hi. rewrite Hi in E. now apply insert_true_inv in E.
Qed.

Lemma insert_result_witness :
  caps_ok (new_Quadtree worldBoundary 4) /\
  exists t',
    (forall fuel, (depth (new_Quadtree worldBoundary 4) + 2 <= fuel)%nat ->
       insert fuel (new_Quadtree worldBoundary 4) obj1
       = Some (intersects (boundary (new_Quadtree worldBoundary 4))
                          (bounds obj1), t')) /\
    (forall fuel r t'',
       insert fuel (new_Quadtree worldBoundary 4) obj1 = Some (r, t'') ->
       r = intersects (boundary (new_Quadtree worldBoundary 4)) (bounds obj1)
       /\ t'' = t') /\
    (intersects (boundary (new_Quadtree worldBoundary 4)) (bounds obj1) = false
     -> t' = new_Quadtree worldBoundary 4) /\
    (intersects (boundary (new_Quadtree worldBoundary 4)) (bounds obj1) = true
     -> Permutation (all_objects t')
                    (obj1 :: all_objects (new_Quadtree worldBoundary 4))).
Proof.
  assert (H : caps_ok (new_Quadtree worldBoundary 4)) by reflexivity.
  split; [exact H|].
  exact (insert_result (new_Quadtree worldBoundary 4) obj1 H).
Defined.

(** ** C5 *)

(** C5.  [intersects(a, b)] is false exactly when one of the four strict
    tests holds; rectangles that share an edge ([{0,0,10,10}] and
    [{10,0,10,10}]) or a corner ([{0,0,10,10}] and [{10,10,10,10}])
    intersect; and it is this predicate that [insert] tests against the
    boundary of the node and [query] against the boundary and against the
    bounds of each object of the node. *)
Theorem intersects_inclusive :
  (forall a b, intersects a b = false <-> strictly_outside a b) /\
  intersects (rect 0 0 10 10) (rect 10 0 10 10) = true /\
  intersects (rect 10 0 10 10) (rect 0 0 10 10) = true /\
  intersects (rect 0 0 10 10) (rect 10 10 10 10) = true /\
  (forall fuel t obj,
      (exists t', insert (S fuel) t obj = Some (false, t')) <->
      intersects (boundary t) (bounds obj) = false) /\
  (forall t range found,
      intersects (boundary t) range = false -> query t range found = found) /\
  (forall t range obj,
      intersects (boundary t) range = true -> In obj (objects t) ->
      (In obj (query t range []) <-> intersects range (bounds obj) = true)).
Proof.
  split; [exact intersects_false_iff|].
  do 3 (split; [vm_compute; reflexivity|]).
  split; [|split].
  - intros fuel t obj. split.
    + intros [t' H]. now apply insert_false_inv in H.
    + intros H. exists t. now apply insert_outside.
  - intros t range found H. destruct t; simpl in *; now rewrite H.
  - intros t range obj Hb Hin. split.
    + intros H. now apply query_In in H.
    + intros H. rewrite query_nil_eq, Hb. apply in_or_app. left.
      apply filter_In. now split.
Qed.

(** ** C6 *)

(** Order of [float] values: [<=] is transitive, total on values other than
    NaN, and antisymmetric up to [==]. *)
Ltac cmp_cases :=
  repeat match goal with
         | |- context [Z.compare ?a ?b] => destruct (Z.compare_spec a b)
         | |- context [Pos.compare ?a ?b] => destruct (Pos.compare_spec a b)
         end.

Lemma le_trans a b c :
  F32.le a b = true -> F32.le b c = true -> F32.le a c = true.
Proof.
  unfold F32.le, SFleb, SFcompare.
  change (Pos.compare_cont Eq) with Pos.compare.
  destruct a as [[]|[]| |[] ma ea], b as [[]|[]| |[] mb eb],
    c as [[]|[]| |[] mc ec]; try reflexivity; try discriminate;
    cmp_cases; simpl; try reflexivity; try discriminate; subst; lia.
Qed.

Lemma le_total a b :
  F32.is_nan a = false -> F32.is_nan b = false ->
  F32.le a b = true \/ F32.le b a = true.
Proof.
  unfold F32.le, SFleb, SFcompare.
  change (Pos.compare_cont Eq) with Pos.compare.
  destruct a as [[]|[]| |[] ma ea], b as [[]|[]| |[] mb eb];
    try discriminate; intros _ _; auto;
    cmp_cases; simpl; auto; subst; lia.
Qed.

Lemma le_not_nan a b :
  F32.le a b = true -> F32.is_nan a = false /\ F32.is_nan b = false.
Proof.
  destruct a as [[]|[]| |[] ma ea], b as [[]|[]| |[] mb eb];
    try discriminate; auto.
Qed.

Lemma le_antisym a b :
  F32.le a b = true -> F32.le b a = true -> F32.eq a b = true.
Proof.
  unfold F32.le, F32.eq, SFleb, SFeqb, SFcompare.
  change (Pos.compare_cont Eq) with Pos.compare.
  destruct a as [[]|[]| |[] ma ea], b as [[]|[]| |[] mb eb];
    try reflexivity; try discriminate;
    cmp_cases; simpl; try reflexivity; try discriminate; subst; lia.
Qed.

Lemma children_subdivide t :
  children (subdivide t) =
  [new_Quadtree (mkRect (mid_x (boundary t)) (y (boundary t))
                        (F32.div (width (boundary t)) F32.two)
                        (F32.div (height (boundary t)) F32.two)) (capacity t);
   new_Quadtree (mkRect (x (boundary t)) (y (boundary t))
                        (F32.div (width (boundary t)) F32.two)
                        (F32.div (height (boundary t)) F32.two)) (capacity t);
   new_Quadtree (mkRect (mid_x (boundary t)) (mid_y (boundary t))
                        (F32.div (width (boundary t)) F32.two)
                        (F32.div (height (boundary t)) F32.two)) (capacity t);
   new_Quadtree (mkRect (x (boundary t)) (mid_y (boundary t))
                        (F32.div (width (boundary t)) F32.two)
                        (F32.div (height (boundary t)) F32.two)) (capacity t)].
Proof. reflexivity. Qed.

Lemma ForallOrdPairs_4 {A} (R : A -> A -> Prop) a b c d :
  R a b -> R a c -> R a d -> R b c -> R b d -> R c d ->
  ForallOrdPairs R [a; b; c; d].
Proof. intros. repeat constructor; assumption. Qed.

Lemma contains_iff r px py :
  contains r px py = true <->
  (F32.le (x r) px = true /\ F32.le px (F32.add (x r) (width r)) = true) /\
  (F32.le (y r) py = true /\ F32.le py (F32.add (y r) (height r)) = true).
Proof.
  unfold contains, F32.ge. rewrite !andb_true_iff. tauto.
Qed.

(** C6 (as stated, fails on [float]).  The node of boundary
    [{16777216, 0, 2, 2}] contains the point (16777218, 0), on its right
    edge, but none of the four children made by [subdivide] does: the middle
    16777217 is not a [float] and rounds to 16777216, so that the children
    [children[0]] and [children[1]] get the same boundary and end at
    x = 16777216. *)
Lemma subdivide_leaves_gap :
  contains far_world (F32.of_int 16777218) (F32.of_int 0) = true /\
  Forall (fun ch =>
            contains (boundary ch) (F32.of_int 16777218) (F32.of_int 0) = false)
         (children (subdivide (new_Quadtree far_world 4))) /\
  map boundary (children (subdivide (new_Quadtree far_world 4)))
  = [rect 16777216 0 1 1; rect 16777216 0 1 1;
     rect 16777216 1 1 1; rect 16777216 1 1 1].
Proof.
  split; [vm_compute; reflexivity|]. split.
  - rewrite children_subdivide. repeat constructor; vm_compute; reflexivity.
  - vm_compute. reflexivity.
Qed.

(** C6 (amended).  [subdivide] makes exactly four children, empty and
    undivided, with the capacity of the node; their boundaries are the four
    quadrants of half the width and half the height computed in [float]:
    [{x + w/2, y}], [{x, y}], [{x + w/2, y + h/2}] and [{x, y + h/2}].  A
    point contained in two of them lies on a dividing line.  They cover the
    boundary of the node, and nothing else, when the halves add up without
    rounding error. *)
Theorem subdivide_quadrants t :
  children (subdivide t) =
  map (fun q => new_Quadtree q (capacity t))
      [mkRect (mid_x (boundary t)) (y (boundary t))
              (F32.div (width (boundary t)) F32.two)
              (F32.div (height (boundary t)) F32.two);
       mkRect (x (boundary t)) (y (boundary t))
              (F32.div (width (boundary t)) F32.two)
              (F32.div (height (boundary t)) F32.two);
       mkRect (mid_x (boundary t)) (mid_y (boundary t))
              (F32.div (width (boundary t)) F32.two)
              (F32.div (height (boundary t)) F32.two);
       mkRect (x (boundary t)) (mid_y (boundary t))
              (F32.div (width (boundary t)) F32.two)
              (F32.div (height (boundary t)) F32.two)] /\
  ForallOrdPairs
    (fun c1 c2 => forall px py,
         contains (boundary c1) px py = true ->
         contains (boundary c2) px py = true ->
         on_divider (boundary t) px py)
    (children (subdivide t)) /\
  (halving_exact (boundary t) ->
   forall px py,
     contains (boundary t) px py = true <->
     Exists (fun ch => contains (boundary ch) px py = true)
            (children (subdivide t))).
Proof.
  split; [reflexivity|]. rewrite children_subdivide.
  set (b := boundary t). set (c := capacity t). split.
  - apply ForallOrdPairs_4; intros px py H1 H2;
      apply contains_iff in H1; apply contains_iff in H2;
      cbn [boundary new_Quadtree x y width height] in H1, H2;
      fold (mid_x b) in H1, H2; fold (mid_y b) in H1, H2;
      unfold on_divider;
      first [left; apply le_antisym; tauto|right; apply le_antisym; tauto].
  - intros ((X1 & X2 & X3) & (Y1 & Y2 & Y3)) px py.
    rewrite !Exists_cons, Exists_nil, !contains_iff.
    cbn [boundary new_Quadtree x y width height].
    fold (mid_x b). fold (mid_y b). rewrite X3, Y3. split.
    + intros ((Hx1 & Hx2) & (Hy1 & Hy2)).
      destruct (le_total px (mid_x b)) as [Hx|Hx];
        [apply (le_not_nan _ _ Hx2)|apply (le_not_nan _ _ X2)| |];
        (destruct (le_total py (mid_y b)) as [Hy|Hy];
         [apply (le_not_nan _ _ Hy2)|apply (le_not_nan _ _ Y2)| |]); tauto.
    + intros [H|[H|[H|[H|[]]]]]; destruct H as ((Hx1 & Hx2) & (Hy1 & Hy2));
        repeat split;
        eauto using le_trans.
Qed.

Lemma worldBoundary_halving_exact : halving_exact worldBoundary.
Proof. repeat split; vm_compute; reflexivity. Qed.

Lemma subdivide_quadrants_witness :
  halving_exact (boundary (new_Quadtree worldBoundary 4)) /\
  map boundary (children (subdivide (new_Quadtree worldBoundary 4)))
  = [rect 400 0 400 300; rect 0 0 400 300;
     rect 400 300 400 300; rect 0 300 400 300] /\
  forall px py,
    contains (boundary (new_Quadtree worldBoundary 4)) px py = true <->
    Exists (fun ch => contains (boundary ch) px py = true)
           (children (subdivide (new_Quadtree worldBoundary 4))).
Proof.
  split; [exact worldBoundary_halving_exact|].
  split; [vm_compute; reflexivity|].
  exact (proj2 (proj2 (subdivide_quadrants (new_Quadtree worldBoundary 4)))
               worldBoundary_halving_exact).
Defined.

(** ** C7 *)

(** C7.  [subdivide] leaves the boundary, the capacity and the list of
    objects of the node as they were; afterwards the node is divided and its
    four children hold no object: nothing was moved into them. *)
Theorem subdivide_frame t :
  boundary (subdivide t) = boundary t /\
  capacity (subdivide t) = capacity t /\
  objects (subdivide t) = objects t /\
  divided (subdivide t) = true /\
  length (children (subdivide t)) = 4%nat /\
  Forall (fun ch => objects ch = [] /\ divided ch = false)
         (children (subdivide t)).
Proof.
  unfold subdivide. destruct (quadrants (boundary t)) as [[[ne nw] se] sw].
  simpl. repeat split; repeat constructor.
Qed.

(** ** C8 *)

Lemma all_objects_nodes t : all_objects t = concat (map objects (nodes t)).
Proof.
  induction t as [b c l|b c l c0 IH0 c1 IH1 c2 IH2 c3 IH3]; simpl.
  - now rewrite app_nil_r.
  - rewrite !map_app, !concat_app. congruence.
Qed.

Lemma insert_appended fuel t obj r t' :
  insert fuel t obj = Some (r, t') ->
  if r then appended obj t t' else t' = t.
Proof.
  revert fuel t obj r t'.
  apply (insert_ind (fun t obj (r : bool) t' =>
                       if r then appended obj t t' else t' = t));
    intros; try reflexivity; eauto using appended.
Qed.

(** C8.  A call of [insert] that returns [true] has appended the object to
    the list of exactly one node: at a divided node, to the subtree of the
    first child, in array order, whose call returned [true], and to the
    node's own list when none did; a call that returns [false] changes
    nothing.  Hence in a tree built by inserting pairwise distinct objects
    no object occurs twice in the lists of the nodes, and no query returns
    an object twice. *)
Theorem single_storage b c objs t :
  built b c objs t -> NoDup objs ->
  NoDup (concat (map objects (nodes t))) /\
  (forall range, NoDup (query t range [])) /\
  (forall fuel s obj r s',
      insert fuel s obj = Some (r, s') ->
      if r
      then appended obj s s' /\
           Permutation (all_objects s') (obj :: all_objects s)
      else s' = s) /\
  (forall fuel bs cs l c0 c1 c2 c3 obj t',
      insert (S fuel) (Split bs cs l c0 c1 c2 c3) obj = Some (true, t') ->
      delegated (fun ch => insert fuel ch obj) bs cs l c0 c1 c2 c3 obj t').
Proof.
  intros B ND. destruct (built_NoDup _ _ _ _ B ND) as [N _].
  split; [now rewrite <- all_objects_nodes|].
  split; [intros range; now apply query_NoDup|].
  split.
  - intros fuel s obj r s' E. pose proof (insert_appended _ _ _ _ _ E) as A.
    destruct r; [|assumption]. split; [assumption|].
    now apply insert_true_inv in E.
  - intros fuel bs cs l c0 c1 c2 c3 obj t' E.
    apply insert_Split_inv in E.
    destruct E as [(_ & E & _)|(_ & _ & D)]; [discriminate|assumption].
Qed.

Lemma main_tree_eq :
  main_tree
  = Some ([true; true; true; true; true; true; true; true], main_result).
Proof. vm_compute. reflexivity. Qed.

Lemma main_result_built : built worldBoundary 4 main_objects main_result.
Proof.
  exact (insert_all_built worldBoundary 4 3 main_objects
           (new_Quadtree worldBoundary 4) [] _ main_result
           (built_new _ _) main_tree_eq).
Qed.

Lemma main_objects_NoDup : NoDup main_objects.
Proof.
  unfold main_objects.
  repeat (constructor; [simpl; intuition discriminate|]). constructor.
Qed.

Lemma single_storage_witness :
  built worldBoundary 4 main_objects main_result /\ NoDup main_objects /\
  NoDup (concat (map objects (nodes main_result))) /\
  (forall range, NoDup (query main_result range [])).
Proof.
  pose proof (single_storage worldBoundary 4 main_objects main_result
                main_result_built main_objects_NoDup) as H.
  split; [exact main_result_built|]. split; [exact main_objects_NoDup|].
  split; [exact (proj1 H)|exact (proj1 (proj2 H))].
Defined.

(** ** C9 *)

(** Any sequence of inserts into a new tree of non-zero capacity runs to
    completion. *)
Lemma built_total b c :
  cap_pos c -> forall objs, exists t, built b c objs t.
Proof.
  intros Hc objs. induction objs as [|obj objs IH] using rev_ind.
  - eexists. constructor.
  - destruct IH as [t B].
    assert (Ht : caps_ok t)
      by (eapply caps_all_ok; eauto using built_caps_all).
    destruct (insert_terminates t obj Ht _ (le_n _)) as (r & t' & E).
    exists t'. eapply built_insert; eauto.
Qed.

(** C9.  For a tree constructed with a capacity of at least 1 (an [int]),
    every sequence of inserts runs to completion; on each tree so built a
    further [insert] returns, its recursion being no deeper than the tree
    plus two, and yields a tree of the same kind; [query], whose recursion
    follows the children of the tree, returns on every range. *)
Theorem insert_query_terminate b c :
  1 <= c -> c <= INT_MAX ->
  (forall objs, exists t, built b c objs t) /\
  (forall objs t, built b c objs t ->
     forall obj,
     exists r t',
       (forall fuel, (depth t + 2 <= fuel)%nat ->
                     insert fuel t obj = Some (r, t')) /\
       built b c (objs ++ [obj]) t') /\
  (forall objs t, built b c objs t ->
     forall range found,
     exists res, query t range found = res /\
                 (length res <= length found + length (all_objects t))%nat).
Proof.
  intros H1 H2. assert (Hc := cap_pos_int c H1 H2).
  split; [now apply built_total|]. split.
  - intros objs t B obj.
    assert (Ht : caps_ok t)
      by (eapply caps_all_ok; eauto using built_caps_all).
    destruct (insert_terminates t obj Ht _ (le_n _)) as (r & t' & E).
    exists r, t'. split.
    + intros fuel Hf. eapply insert_mono; eauto.
    + eapply built_insert; eauto.
  - intros objs t _ range found. eexists. split; [reflexivity|].
    rewrite query_app, length_app. apply Nat.add_le_mono_l.
    clear. revert range.
    induction t as [bt ct l|bt ct l c0 IH0 c1 IH1 c2 IH2 c3 IH3];
      intros range; rewrite query_nil_eq;
      destruct (intersects _ range); simpl; try lia;
      rewrite ?app_nil_r, ?length_app.
    + apply filter_length_le.
    + pose proof (filter_length_le (hits range) l).
      specialize (IH0 range). specialize (IH1 range).
      specialize (IH2 range). specialize (IH3 range). lia.
Qed.

Lemma insert_query_terminate_witness :
  1 <= 4 /\ 4 <= INT_MAX /\
  (forall objs, exists t, built worldBoundary 4 objs t) /\
  (forall objs t, built worldBoundary 4 objs t ->
     forall obj,
     exists r t',
       (forall fuel, (depth t + 2 <= fuel)%nat ->
                     insert fuel t obj = Some (r, t')) /\
       built worldBoundary 4 (objs ++ [obj]) t').
Proof.
  assert (H1 : 1 <= 4) by lia.
  assert (H2 : 4 <= INT_MAX) by (unfold INT_MAX; lia).
  pose proof (insert_query_terminate worldBoundary 4 H1 H2) as H.
  split; [exact H1|]. split; [exact H2|].
  split; [exact (proj1 H)|exact (proj1 (proj2 H))].
Defined.

(** ** C10 *)

Lemma leaves_within_capacity_nodes t :
  leaves_within_capacity t ->
  forall n, In n (nodes t) -> divided n = false ->
            size_le_capacity (objects n) (capacity n) = true.
Proof.
  induction t as [b c l|b c l c0 IH0 c1 IH1 c2 IH2 c3 IH3]; simpl.
  - intros H n [<-|[]] _. exact H.
  - intros (H0 & H1 & H2 & H3) n [<-|Hin]; [discriminate|].
    rewrite !in_app_iff in Hin. intuition.
Qed.

Lemma caps_all_nodes c t :
  caps_all c t -> forall n, In n (nodes t) -> capacity n = c.
Proof.
  induction t as [b c' l|b c' l c0 IH0 c1 IH1 c2 IH2 c3 IH3]; simpl.
  - intros H n [<-|[]]. exact H.
  - intros (H & H0 & H1 & H2 & H3) n [<-|Hin]; [exact H|].
    rewrite !in_app_iff in Hin. intuition.
Qed.

(** A divided node keeps an object that it intersects and that none of its
    children accepts, whatever the length of its list. *)
Lemma insert_fallback fuel b c l c0 c1 c2 c3 obj :
  intersects b (bounds obj) = true ->
  intersects (boundary c0) (bounds obj) = false ->
  intersects (boundary c1) (bounds obj) = false ->
  intersects (boundary c2) (bounds obj) = false ->
  intersects (boundary c3) (bounds obj) = false ->
  insert (S (S fuel)) (Split b c l c0 c1 c2 c3) obj
  = Some (true, Split b c (l ++ [obj]) c0 c1 c2 c3).
Proof.
  intros H H0 H1 H2 H3. apply insert_Split_delegated; [assumption|].
  apply fallback; now apply insert_outside.
Qed.

Lemma edge_objects_NoDup n : NoDup (edge_objects n).
Proof.
  unfold edge_objects. apply Injective_map_NoDup; [|apply seq_NoDup].
  intros i j H. injection H as H. now apply Nat2Z.inj.
Qed.

Lemma edge_objects_built n :
  built far_world 1 (edge_objects (S (S n)))
        (Split far_world 1 (edge_objects (S (S n)))
               (new_Quadtree (rect 16777216 0 1 1) 1)
               (new_Quadtree (rect 16777216 0 1 1) 1)
               (new_Quadtree (rect 16777216 1 1 1) 1)
               (new_Quadtree (rect 16777216 1 1 1) 1)).
Proof.
  induction n as [|n IH].
  - change (edge_objects 2) with (([] ++ [edge_object 0]) ++ [edge_object 1]).
    apply built_insert
      with (t := Leaf far_world 1 [edge_object 0]) (fuel := 2%nat) (r := true).
    + apply built_insert
        with (t := new_Quadtree far_world 1) (fuel := 1%nat) (r := true).
      * apply built_new.
      * vm_compute. reflexivity.
    + vm_compute. reflexivity.
  - replace (edge_objects (S (S (S n))))
      with (edge_objects (S (S n)) ++ [edge_object (S (S n))])
      by (unfold edge_objects; now rewrite (seq_S (S (S n))), map_app).
    eapply built_insert with (fuel := 2%nat) (r := true); [exact IH|].
    apply insert_fallback; vm_compute; reflexivity.
Qed.

(** C10.  In a tree built by inserts, every node that has not divided
    satisfies [objects.size() <= capacity] (the comparison of C++, which
    converts [capacity] to [size_t]; for a capacity from 0 to [INT_MAX] it is
    the comparison of the integers).  A divided node that intersects the
    object and whose four children return [false] appends the object to its
    own list, whatever the length of that list; so the list of a divided
    node is not bounded: in the world [{16777216, 0, 2, 2}] with capacity 1,
    inserting n + 2 distinct objects of bounds [{16777218, 0, 1, 1}], which
    touch the world and none of its quadrants, leaves all of them in the
    list of the divided root. *)
Theorem capacity_bounds_undivided_nodes_only :
  (forall b c objs t,
      built b c objs t ->
      forall n, In n (nodes t) -> divided n = false ->
                size_le_capacity (objects n) (capacity n) = true /\
                (0 <= c -> c <= INT_MAX ->
                 Z.of_nat (length (objects n)) <= capacity n)) /\
  (forall fuel b c l c0 c1 c2 c3 obj,
      intersects b (bounds obj) = true ->
      insert fuel c0 obj = Some (false, c0) ->
      insert fuel c1 obj = Some (false, c1) ->
      insert fuel c2 obj = Some (false, c2) ->
      insert fuel c3 obj = Some (false, c3) ->
      insert (S fuel) (Split b c l c0 c1 c2 c3) obj
      = Some (true, Split b c (l ++ [obj]) c0 c1 c2 c3)) /\
  (forall n, exists t,
      built far_world 1 (edge_objects (n + 2)) t /\
      NoDup (edge_objects (n + 2)) /\
      divided t = true /\ capacity t = 1 /\
      length (objects t) = (n + 2)%nat).
Proof.
  split; [|split].
  - intros b c objs t B n Hin Hd.
    pose proof (leaves_within_capacity_nodes _
                  (built_leaves_within_capacity _ _ _ _ B) n Hin Hd) as Hs.
    split; [exact Hs|]. intros H0 H1.
    rewrite (caps_all_nodes c t (built_caps_all _ _ _ _ B) n Hin) in *.
    unfold size_le_capacity in Hs. rewrite to_size_t_nonneg in Hs by assumption.
    now apply Z.leb_le.
  - intros fuel b c l c0 c1 c2 c3 obj H H0 H1 H2 H3.
    apply insert_Split_delegated; [assumption|]. now apply fallback.
  - intros n. replace (n + 2)%nat with (S (S n)) by lia.
    eexists. split; [apply edge_objects_built|].
    split; [apply edge_objects_NoDup|].
    cbn [divided capacity objects]. unfold edge_objects.
    now rewrite length_map, length_seq.
Qed.

(** The same happens in the world of [main] with an object of negative
    width: the fifth object finds the root full, is rejected by the four
    quadrants and stays in the list of the divided root. *)
Example inverted_object_stays_at_root :
  exists t,
    insert_all 3 (new_Quadtree worldBoundary 4)
               [obj1; obj2; obj3; obj4; inverted]
    = Some ([true; true; true; true; true], t) /\
    divided t = true /\
    objects t = [obj1; obj2; obj3; obj4; inverted].
Proof.
  eexists. split; [vm_compute; reflexivity|]. split; reflexivity.
Qed.

(** * Further properties of the quadtree *)

(** ** Order of [float] values and the strict test *)

Lemma le_lt_false a b : F32.le a b = true -> F32.lt b a = false.
Proof.
  unfold F32.le, F32.lt, SFleb, SFltb, SFcompare.
  change (Pos.compare_cont Eq) with Pos.compare.
  destruct a as [[]|[]| |[] ma ea], b as [[]|[]| |[] mb eb];
    try reflexivity; try discriminate;
    cmp_cases; simpl; try reflexivity; try discriminate; subst; lia.
Qed.

Lemma lt_false_le_r a b c :
  F32.lt a b = false -> F32.le c b = true -> F32.lt a c = false.
Proof.
  unfold F32.le, F32.lt, SFleb, SFltb, SFcompare.
  change (Pos.compare_cont Eq) with Pos.compare.
  destruct a as [[]|[]| |[] ma ea], b as [[]|[]| |[] mb eb],
    c as [[]|[]| |[] mc ec]; try reflexivity; try discriminate;
    cmp_cases; simpl; try reflexivity; try discriminate; subst; lia.
Qed.

Lemma lt_false_le_l a b c :
  F32.lt a b = false -> F32.le a c = true -> F32.lt c b = false.
Proof.
  unfold F32.le, F32.lt, SFleb, SFltb, SFcompare.
  change (Pos.compare_cont Eq) with Pos.compare.
  destruct a as [[]|[]| |[] ma ea], b as [[]|[]| |[] mb eb],
    c as [[]|[]| |[] mc ec]; try reflexivity; try discriminate;
    cmp_cases; simpl; try reflexivity; try discriminate; subst; lia.
Qed.

Lemma intersects_true_iff a b :
  intersects a b = true <->
  F32.lt (F32.add (x a) (width a)) (x b) = false /\
  F32.lt (F32.add (y a) (height a)) (y b) = false /\
  F32.lt (F32.add (x b) (width b)) (x a) = false /\
  F32.lt (F32.add (y b) (height b)) (y a) = false.
Proof.
  unfold intersects, F32.gt.
  rewrite negb_true_iff, !orb_false_iff. tauto.
Qed.

(** ** Rect::contains and Rect::intersects *)

(** X1.  Two rectangles that contain a common point intersect. *)
Theorem contains_common_point_intersects a b px py :
  contains a px py = true -> contains b px py = true ->
  intersects a b = true.
Proof.
  rewrite !contains_iff, intersects_true_iff.
  intros ((A1 & A2) & (A3 & A4)) ((B1 & B2) & (B3 & B4)).
  repeat split; apply le_lt_false; eauto using le_trans.
Qed.

Lemma contains_common_point_intersects_witness :
  contains (rect 0 0 10 10) (F32.of_int 10) (F32.of_int 5) = true /\
  contains (rect 10 0 10 10) (F32.of_int 10) (F32.of_int 5) = true /\
  intersects (rect 0 0 10 10) (rect 10 0 10 10) = true.
Proof.
  assert (Ha : contains (rect 0 0 10 10) (F32.of_int 10) (F32.of_int 5) = true)
    by (vm_compute; reflexivity).
  assert (Hb : contains (rect 10 0 10 10) (F32.of_int 10) (F32.of_int 5) = true)
    by (vm_compute; reflexivity).
  split; [exact Ha|]. split; [exact Hb|].
  exact (contains_common_point_intersects _ _ _ _ Ha Hb).
Defined.

(** ** Where insert stores an object *)

Lemma query_Split b c l c0 c1 c2 c3 range :
  query (Split b c l c0 c1 c2 c3) range [] =
  if intersects b range
  then filter (hits range) l ++ query c0 range [] ++ query c1 range [] ++
       query c2 range [] ++ query c3 range []
  else [].
Proof.
  rewrite query_nil_eq. cbn [boundary objects children map concat].
  now rewrite app_nil_r.
Qed.

Lemma query_Leaf b c l range :
  query (Leaf b c l) range [] =
  if intersects b range then filter (hits range) l else [].
Proof.
  rewrite query_nil_eq. cbn [boundary objects children map concat].
  now rewrite app_nil_r.
Qed.

Lemma well_placed_subdivide b c l :
  well_placed (Leaf b c l) -> well_placed (subdivide (Leaf b c l)).
Proof.
  intros [H _]. unfold subdivide. cbn [boundary capacity objects].
  destruct (quadrants b) as [[[ne nw] se] sw].
  cbn [well_placed all_objects new_Quadtree boundary app] in *.
  rewrite app_nil_r. repeat split; auto.
Qed.

(** [insert] keeps every stored object below nodes whose boundary it
    intersects, and stores nothing but the object it was given. *)
Lemma insert_well_placed fuel t obj r t' :
  insert fuel t obj = Some (r, t') ->
  well_placed t ->
  well_placed t' /\
  (forall o, In o (all_objects t') -> o = obj \/ In o (all_objects t)).
Proof.
  revert fuel t obj r t'.
  apply (insert_ind (fun t obj (r : bool) t' =>
           well_placed t ->
           well_placed t' /\
           (forall o, In o (all_objects t') -> o = obj \/ In o (all_objects t))));
    intros.
  - auto.
  - cbn [well_placed all_objects boundary] in *. destruct H1 as [F _].
    split; [split; [|exact I]|].
    + apply Forall_app. split; [assumption|]. now repeat constructor.
    + intros o Ho. apply in_app_iff in Ho. destruct Ho as [Ho|[<-|[]]]; auto.
  - destruct (H1 (well_placed_subdivide _ _ _ H2)) as [W M].
    split; [assumption|]. intros o Ho. apply M in Ho.
    now rewrite all_objects_subdivide in Ho.
  - cbn [well_placed all_objects boundary] in *.
    destruct H1 as (F & W0 & W1 & W2 & W3). destruct (H0 W0) as [W0' M].
    rewrite !Forall_app in F. destruct F as (Fl & F0 & F1 & F2 & F3).
    assert (F0' : Forall (fun o => intersects b (bounds o) = true)
                         (all_objects c0')).
    { apply Forall_forall. intros o Ho. apply M in Ho.
      destruct Ho as [->|Ho]; [assumption|].
      now apply (proj1 (Forall_forall _ _) F0). }
    split; [rewrite !Forall_app; tauto|].
    intros o. rewrite !in_app_iff. intros [?|[Ho|?]]; try tauto.
    apply M in Ho. tauto.
  - cbn [well_placed all_objects boundary] in *.
    destruct H2 as (F & W0 & W1 & W2 & W3). destruct (H1 W1) as [W1' M].
    rewrite !Forall_app in F. destruct F as (Fl & F0 & F1 & F2 & F3).
    assert (F1' : Forall (fun o => intersects b (bounds o) = true)
                         (all_objects c1')).
    { apply Forall_forall. intros o Ho. apply M in Ho.
      destruct Ho as [->|Ho]; [assumption|].
      now apply (proj1 (Forall_forall _ _) F1). }
    split; [rewrite !Forall_app; tauto|].
    intros o. rewrite !in_app_iff. intros [?|[?|[Ho|?]]]; try tauto.
    apply M in Ho. tauto.
  - cbn [well_placed all_objects boundary] in *.
    destruct H3 as (F & W0 & W1 & W2 & W3). destruct (H2 W2) as [W2' M].
    rewrite !Forall_app in F. destruct F as (Fl & F0 & F1 & F2 & F3).
    assert (F2' : Forall (fun o => intersects b (bounds o) = true)
                         (all_objects c2')).
    { apply Forall_forall. intros o Ho. apply M in Ho.
      destruct Ho as [->|Ho]; [assumption|].
      now apply (proj1 (Forall_forall _ _) F2). }
    split; [rewrite !Forall_app; tauto|].
    intros o. rewrite !in_app_iff. intros [?|[?|[?|[Ho|?]]]]; try tauto.
    apply M in Ho. tauto.
  - cbn [well_placed all_objects boundary] in *.
    destruct H4 as (F & W0 & W1 & W2 & W3). destruct (H3 W3) as [W3' M].
    rewrite !Forall_app in F. destruct F as (Fl & F0 & F1 & F2 & F3).
    assert (F3' : Forall (fun o => intersects b (bounds o) = true)
                         (all_objects c3')).
    { apply Forall_forall. intros o Ho. apply M in Ho.
      destruct Ho as [->|Ho]; [assumption|].
      now apply (proj1 (Forall_forall _ _) F3). }
    split; [rewrite !Forall_app; tauto|].
    intros o. rewrite !in_app_iff. intros [?|[?|[?|[?|Ho]]]]; try tauto.
    apply M in Ho. tauto.
  - cbn [well_placed all_objects boundary] in *.
    destruct H4 as (F & W).
    rewrite !Forall_app in F. destruct F as (Fl & F0 & F1 & F2 & F3).
    split; [split; [|exact W]|].
    + rewrite !Forall_app. repeat split; try assumption.
      now repeat constructor.
    + intros o. rewrite !in_app_iff. simpl.
      intros [[?|[<-|[]]]|?]; tauto.
Qed.

Lemma built_well_placed b c objs t : built b c objs t -> well_placed t.
Proof.
  induction 1 as [|objs t fuel obj r t' B IH E].
  - split; [constructor|exact I].
  - now apply (insert_well_placed _ _ _ _ _ E).
Qed.

Lemma well_placed_nodes t :
  well_placed t ->
  forall n, In n (nodes t) ->
            Forall (fun obj => intersects (boundary n) (bounds obj) = true)
                   (all_objects n).
Proof.
  induction t as [b c l|b c l c0 IH0 c1 IH1 c2 IH2 c3 IH3];
    cbn [well_placed nodes].
  - intros [F _] n [<-|[]]. exact F.
  - intros (F & W0 & W1 & W2 & W3) n [<-|Hin]; [exact F|].
    rewrite !in_app_iff in Hin. intuition.
Qed.

(** X2.  In a tree built by inserts, every object stored in the subtree of a
    node (in the node's own list or below it) has bounds that intersect the
    boundary of that node: an object is kept only under nodes it touches. *)
Theorem stored_objects_intersect_their_nodes b c objs t :
  built b c objs t ->
  forall n obj, In n (nodes t) -> In obj (all_objects n) ->
                intersects (boundary n) (bounds obj) = true.
Proof.
  intros B n obj Hn Ho.
  pose proof (well_placed_nodes t (built_well_placed _ _ _ _ B) n Hn) as F.
  now apply (proj1 (Forall_forall _ _) F).
Qed.

Lemma stored_objects_intersect_their_nodes_witness :
  built worldBoundary 4 main_objects main_result /\
  In (Leaf (rect 400 0 400 300) 4 [obj7]) (nodes main_result) /\
  In obj7 (all_objects (Leaf (rect 400 0 400 300) 4 [obj7])) /\
  intersects (boundary (Leaf (rect 400 0 400 300) 4 [obj7])) (bounds obj7)
  = true.
Proof.
  assert (Hn : In (Leaf (rect 400 0 400 300) 4 [obj7]) (nodes main_result))
    by (vm_compute; tauto).
  assert (Ho : In obj7 (all_objects (Leaf (rect 400 0 400 300) 4 [obj7])))
    by (left; reflexivity).
  split; [exact main_result_built|]. split; [exact Hn|]. split; [exact Ho|].
  exact (stored_objects_intersect_their_nodes _ _ _ _ main_result_built
           _ _ Hn Ho).
Defined.

(** ** Ranges that cover an object *)

Lemma covers_intersects r o bnd :
  covers r o -> intersects bnd o = true -> intersects bnd r = true.
Proof.
  intros (C1 & C2 & C3 & C4). rewrite !intersects_true_iff.
  intros (I1 & I2 & I3 & I4). repeat split.
  - eapply lt_false_le_r; eauto.
  - eapply lt_false_le_r; eauto.
  - eapply lt_false_le_l; eauto.
  - eapply lt_false_le_l; eauto.
Qed.

Lemma covers_hits r o :
  covers r o -> not_inverted o -> intersects r o = true.
Proof.
  intros (C1 & C2 & C3 & C4) (N1 & N2). apply intersects_true_iff.
  repeat split.
  - eapply lt_false_le_l; eauto.
  - eapply lt_false_le_l; eauto.
  - eapply lt_false_le_r; eauto.
  - eapply lt_false_le_r; eauto.
Qed.

(** An object placed under nodes it intersects is found by every range that
    intersects those nodes and the object. *)
Lemma query_finds_placed : forall t range obj,
    well_placed t -> In obj (all_objects t) ->
    (forall bnd, intersects bnd (bounds obj) = true ->
                 intersects bnd range = true) ->
    intersects range (bounds obj) = true ->
    In obj (query t range []).
Proof.
  induction t as [b c l|b c l c0 IH0 c1 IH1 c2 IH2 c3 IH3];
    intros range obj W Hin Hb Hr.
  - rewrite query_Leaf. destruct W as [F _]. cbn [all_objects boundary] in *.
    rewrite (Hb b (proj1 (Forall_forall _ _) F obj Hin)).
    apply filter_In. now split.
  - rewrite query_Split. destruct W as (F & W0 & W1 & W2 & W3).
    cbn [all_objects boundary] in *.
    rewrite (Hb b (proj1 (Forall_forall _ _) F obj Hin)).
    rewrite !in_app_iff in *. rewrite filter_In.
    destruct Hin as [H|[H|[H|[H|H]]]]; unfold hits; auto 10.
Qed.

(** X3.  In a tree built by inserts, [query(range)] returns every stored
    object whose bounds the range covers, provided the bounds are not
    inverted (their ends do not lie before their origin): completeness holds
    for ranges that enclose the object. *)
Theorem query_finds_covered_object b c objs t range obj :
  built b c objs t -> In obj (all_objects t) ->
  covers range (bounds obj) -> not_inverted (bounds obj) ->
  In obj (query t range []).
Proof.
  intros B Hin C N.
  apply query_finds_placed; eauto using built_well_placed.
  - intros bnd. now apply covers_intersects.
  - now apply covers_hits.
Qed.

Lemma query_finds_covered_object_witness :
  built worldBoundary 4 main_objects main_result /\
  In obj7 (all_objects main_result) /\
  covers (rect 370 280 40 40) (bounds obj7) /\
  not_inverted (bounds obj7) /\
  In obj7 (query main_result (rect 370 280 40 40) []).
Proof.
  assert (Hin : In obj7 (all_objects main_result)) by (vm_compute; tauto).
  assert (Hc : covers (rect 370 280 40 40) (bounds obj7))
    by (repeat split; vm_compute; reflexivity).
  assert (Hn : not_inverted (bounds obj7))
    by (split; vm_compute; reflexivity).
  split; [exact main_result_built|]. split; [exact Hin|].
  split; [exact Hc|]. split; [exact Hn|].
  exact (query_finds_covered_object _ _ _ _ _ _ main_result_built Hin Hc Hn).
Defined.

(** ** Queries before and after an insert *)







(** X14.  [query] does not clear the vector it is given: it keeps what
    [found] held, in order, and appends its results, so that a second call
    with the same vector appends the same results once more. *)
Theorem query_appends t range found :
  query t range found = found ++ query t range [] /\
  query t range (query t range found)
  = found ++ query t range [] ++ query t range [].
Proof.
  split; [apply query_app|].
  rewrite (query_app t range (query t range found)), (query_app t range found).
  now rewrite <- app_assoc.
Qed.

(** ** Shape of the trees built by inserts *)

Lemma insert_quadrant_shaped fuel t obj r t' :
  insert fuel t obj = Some (r, t') ->
  quadrant_shaped t -> quadrant_shaped t' /\ boundary t' = boundary t.
Proof.
  revert fuel t obj r t'.
  apply (insert_ind (fun t obj (r : bool) t' =>
           quadrant_shaped t ->
           quadrant_shaped t' /\ boundary t' = boundary t)); intros;
    cbn [quadrant_shaped boundary] in *;
    try (split; [tauto|reflexivity]).
  - assert (S : quadrant_shaped (subdivide (Leaf b c l))).
    { unfold subdivide. cbn [boundary capacity objects].
      destruct (quadrants b) as [[[ne nw] se] sw] eqn:Q.
      cbn [quadrant_shaped new_Quadtree boundary]. rewrite Q.
      repeat split. }
    destruct (H1 S) as [S' Hb]. split; [assumption|].
    rewrite Hb. unfold subdivide. cbn [boundary].
    now destruct (quadrants b) as [[[ne nw] se] sw].
  - destruct H1 as (Q & Q0 & Q1 & Q2 & Q3). destruct (H0 Q0) as [Q0' Hb].
    rewrite Hb. tauto.
  - destruct H2 as (Q & Q0 & Q1 & Q2 & Q3). destruct (H1 Q1) as [Q1' Hb].
    rewrite Hb. tauto.
  - destruct H3 as (Q & Q0 & Q1 & Q2 & Q3). destruct (H2 Q2) as [Q2' Hb].
    rewrite Hb. tauto.
  - destruct H4 as (Q & Q0 & Q1 & Q2 & Q3). destruct (H3 Q3) as [Q3' Hb].
    rewrite Hb. tauto.
Qed.

Lemma built_quadrant_shaped b c objs t :
  built b c objs t -> quadrant_shaped t /\ boundary t = b.
Proof.
  induction 1 as [|objs t fuel obj r t' B [IH1 IH2] E].
  - split; [exact I|reflexivity].
  - destruct (insert_quadrant_shaped _ _ _ _ _ E IH1) as [Q Hb].
    split; [assumption|congruence].
Qed.

Lemma quadrant_shaped_nodes t :
  quadrant_shaped t ->
  forall n, In n (nodes t) -> divided n = true ->
            exists ne nw se sw,
              quadrants (boundary n) = (ne, nw, se, sw) /\
              map boundary (children n) = [ne; nw; se; sw].
Proof.
  induction t as [b c l|b c l c0 IH0 c1 IH1 c2 IH2 c3 IH3];
    cbn [quadrant_shaped nodes].
  - intros _ n [<-|[]]. discriminate.
  - intros (Q & Q0 & Q1 & Q2 & Q3) n [<-|Hin].
    + intros _. cbn [boundary children map].
      destruct (quadrants b) as [[[ne nw] se] sw].
      injection Q as -> -> -> ->. now exists ne, nw, se, sw.
    + rewrite !in_app_iff in Hin. intuition.
Qed.

(** X5.  In a tree built by inserts into [Quadtree(b, c)], the root keeps
    the boundary [b], every node has the capacity [c], and the four children
    of every divided node have, in array order, the boundaries that
    [subdivide] computes from the boundary of that node: [insert] creates
    nodes by [subdivide] only and never changes a boundary or a capacity. *)
Theorem built_tree_shape b c objs t :
  built b c objs t ->
  boundary t = b /\
  forall n, In n (nodes t) ->
    capacity n = c /\
    (divided n = true ->
     exists ne nw se sw,
       quadrants (boundary n) = (ne, nw, se, sw) /\
       map boundary (children n) = [ne; nw; se; sw]).
Proof.
  intros B. destruct (built_quadrant_shaped _ _ _ _ B) as [Q Hb].
  split; [assumption|]. intros n Hn. split.
  - exact (caps_all_nodes c t (built_caps_all _ _ _ _ B) n Hn).
  - now apply quadrant_shaped_nodes with (t := t).
Qed.

Lemma built_tree_shape_witness :
  built worldBoundary 4 main_objects main_result /\
  boundary main_result = worldBoundary /\
  map boundary (children main_result)
  = [rect 400 0 400 300; rect 0 0 400 300;
     rect 400 300 400 300; rect 0 300 400 300].
Proof.
  pose proof (built_tree_shape _ _ _ _ main_result_built) as H.
  split; [exact main_result_built|]. split; [exact (proj1 H)|].
  vm_compute. reflexivity.
Defined.

(** ** What a built tree stores *)

Lemma built_boundary b c objs t : built b c objs t -> boundary t = b.
Proof. intros B. exact (proj2 (built_quadrant_shaped _ _ _ _ B)). Qed.

(** X6.  A tree built by inserts stores exactly the inserted objects whose
    bounds intersect the boundary of the world, each as often as it was
    inserted: nothing accepted is lost, nothing rejected is kept. *)
Theorem built_stores_accepted b c objs t :
  built b c objs t ->
  Permutation (all_objects t) (accepted b objs).
Proof.
  induction 1 as [|objs t fuel obj r t' B IH E]; [reflexivity|].
  unfold accepted in *. rewrite filter_app. cbn [filter].
  pose proof (insert_returns_intersects _ _ _ _ _ E) as Hr.
  rewrite (built_boundary _ _ _ _ B) in Hr. rewrite <- Hr.
  destruct r.
  - apply insert_true_inv in E. destruct E as [_ E].
    rewrite E, IH. apply Permutation_cons_append.
  - apply insert_false_inv in E. destruct E as [_ ->].
    now rewrite app_nil_r.
Qed.

Lemma built_stores_accepted_witness :
  built worldBoundary 4 main_objects main_result /\
  Permutation (all_objects main_result) (accepted worldBoundary main_objects).
Proof.
  split; [exact main_result_built|].
  exact (built_stores_accepted _ _ _ _ main_result_built).
Defined.

(** ** Depth of a built tree *)

Lemma insert_splits_full fuel t obj r t' :
  insert fuel t obj = Some (r, t') -> splits_full t -> splits_full t'.
Proof.
  revert fuel t obj r t'.
  apply (insert_ind (fun t obj (r : bool) t' =>
                       splits_full t -> splits_full t'));
    intros; cbn [splits_full] in *; try tauto.
  - apply H1. unfold subdivide. cbn [boundary capacity objects].
    destruct (quadrants b) as [[[ne nw] se] sw].
    cbn [splits_full new_Quadtree]. repeat split.
    unfold size_lt_capacity in H0. apply Z.ltb_ge in H0. exact H0.
  - destruct H4 as [F S]. split; [|exact S].
    rewrite length_app. cbn [length]. lia.
Qed.

(** Each insert adds one entry at most. *)
Lemma built_count b c objs t :
  built b c objs t -> (length (all_objects t) <= length objs)%nat.
Proof.
  induction 1 as [|objs t fuel obj r t' B IH E]; [apply le_n|].
  rewrite length_app. cbn [length]. destruct r.
  - apply insert_true_inv in E. destruct E as [_ E].
    rewrite (Permutation_length E). cbn [length]. lia.
  - apply insert_false_inv in E. destruct E as [_ ->]. lia.
Qed.

Lemma built_splits_full b c objs t : built b c objs t -> splits_full t.
Proof.
  induction 1; [exact I|]. eapply insert_splits_full; eauto.
Qed.

Lemma splits_full_depth c : forall t,
    caps_all c t -> splits_full t ->
    to_size_t c * Z.of_nat (depth t) <= Z.of_nat (length (all_objects t)).
Proof.
  assert (Hc : 0 <= to_size_t c)
    by (unfold to_size_t; apply Z.mod_pos_bound; lia).
  induction t as [bt ct l|bt ct l c0 IH0 c1 IH1 c2 IH2 c3 IH3];
    cbn [caps_all splits_full depth all_objects].
  - intros _ _. rewrite Z.mul_0_r. lia.
  - intros (-> & A0 & A1 & A2 & A3) (F & S0 & S1 & S2 & S3).
    specialize (IH0 A0 S0). specialize (IH1 A1 S1).
    specialize (IH2 A2 S2). specialize (IH3 A3 S3).
    rewrite !length_app, !Nat2Z.inj_add, Nat2Z.inj_succ.
    rewrite <- Z.add_1_r, Z.mul_add_distr_l, Z.mul_1_r.
    assert (M : to_size_t c *
                Z.of_nat (Nat.max (Nat.max (depth c0) (depth c1))
                                  (Nat.max (depth c2) (depth c3)))
                <= Z.of_nat (length (all_objects c0)) +
                   Z.of_nat (length (all_objects c1)) +
                   Z.of_nat (length (all_objects c2)) +
                   Z.of_nat (length (all_objects c3))).
    { destruct (Nat.max_spec (depth c0) (depth c1)) as [[_ E1]|[_ E1]];
        destruct (Nat.max_spec (depth c2) (depth c3)) as [[_ E2]|[_ E2]];
        rewrite E1, E2;
        match goal with
        | |- context [Nat.max ?a ?b] =>
          destruct (Nat.max_spec a b) as [[_ E]|[_ E]]; rewrite E
        end; lia. }
    lia.
Qed.

(** X7.  In a tree built by inserts, the capacity (as the comparison with
    [objects.size()] reads it) times the depth of the tree is at most the
    number of objects stored, which is at most the number of inserts: with
    capacity [c >= 1] a tree of [n] objects is at most [n / c] levels deep,
    and so is the recursion of [insert] and [query]. *)
Theorem built_depth_bound b c objs t :
  built b c objs t ->
  to_size_t c * Z.of_nat (depth t) <= Z.of_nat (length (all_objects t)) /\
  (length (all_objects t) <= length objs)%nat.
Proof.
  intros B. split.
  - apply splits_full_depth;
      eauto using built_caps_all, built_splits_full.
  - eapply built_count; eauto.
Qed.

Lemma built_depth_bound_witness :
  built worldBoundary 4 main_objects main_result /\
  to_size_t 4 * Z.of_nat (depth main_result)
  <= Z.of_nat (length (all_objects main_result)) /\
  (length (all_objects main_result) <= length main_objects)%nat.
Proof.
  split; [exact main_result_built|].
  exact (built_depth_bound _ _ _ _ main_result_built).
Defined.

(** ** Trees that do not subdivide *)

Lemma insert_all_flat b c : forall objs l,
    Z.of_nat (length l) + Z.of_nat (length (accepted b objs)) <= to_size_t c ->
    insert_all 1 (Leaf b c l) objs
    = Some (map (fun obj => intersects b (bounds obj)) objs,
            Leaf b c (l ++ accepted b objs)).
Proof.
  induction objs as [|obj objs IH]; intros l Hl.
  - cbn. now rewrite app_nil_r.
  - cbn [insert_all map accepted filter] in *.
    destruct (intersects b (bounds obj)) eqn:Hi.
    + cbn [length] in Hl. rewrite insert_room; [|assumption|].
      * cbn [bind]. rewrite IH.
        -- cbn [bind]. now rewrite <- app_assoc.
        -- rewrite length_app. cbn [length]. unfold accepted. lia.
      * unfold size_lt_capacity. apply Z.ltb_lt. lia.
    + rewrite insert_outside by assumption. cbn [bind].
      rewrite IH by assumption. reflexivity.
Qed.

(** X8.  As long as the objects accepted (those whose bounds intersect the
    world) are no more than the capacity, the tree does not subdivide: the
    inserts return the outcome of the boundary test, the tree is the single
    node holding the accepted objects in insertion order, and a query is a
    scan of that list. *)
Theorem small_tree_is_flat b c objs :
  Z.of_nat (length (accepted b objs)) <= to_size_t c ->
  insert_all 1 (new_Quadtree b c) objs
  = Some (map (fun obj => intersects b (bounds obj)) objs,
          Leaf b c (accepted b objs)) /\
  forall range,
    query (Leaf b c (accepted b objs)) range []
    = if intersects b range
      then filter (hits range) (accepted b objs) else [].
Proof.
  intros H. split.
  - unfold new_Quadtree. rewrite insert_all_flat by (cbn [length]; lia).
    reflexivity.
  - intros range. apply query_Leaf.
Qed.

Lemma small_tree_is_flat_witness :
  Z.of_nat (length (accepted worldBoundary [obj1; obj2; obj3; obj4]))
  <= to_size_t 4 /\
  insert_all 1 (new_Quadtree worldBoundary 4) [obj1; obj2; obj3; obj4]
  = Some (map (fun obj => intersects worldBoundary (bounds obj))
              [obj1; obj2; obj3; obj4],
          Leaf worldBoundary 4 (accepted worldBoundary [obj1; obj2; obj3; obj4])).
Proof.
  assert (H : Z.of_nat (length (accepted worldBoundary [obj1; obj2; obj3; obj4]))
              <= to_size_t 4) by (vm_compute; discriminate).
  split; [exact H|].
  exact (proj1 (small_tree_is_flat worldBoundary 4 [obj1; obj2; obj3; obj4] H)).
Defined.

(** X9.  A negative capacity is converted to [size_t] in the comparison
    [objects.size() < capacity] and becomes a number above 2^63: a tree
    constructed with a negative capacity never subdivides, however many
    objects (fewer than 2^63) are inserted. *)
Theorem negative_capacity_never_subdivides b c objs :
  INT_MIN <= c -> c < 0 ->
  Z.of_nat (length objs) < 2 ^ 63 ->
  insert_all 1 (new_Quadtree b c) objs
  = Some (map (fun obj => intersects b (bounds obj)) objs,
          Leaf b c (accepted b objs)).
Proof.
  intros H1 H2 H3. unfold new_Quadtree.
  rewrite insert_all_flat; [reflexivity|].
  pose proof (filter_length_le (fun obj => intersects b (bounds obj)) objs).
  unfold accepted, to_size_t, INT_MIN in *. cbn [length].
  replace (c mod 2 ^ 64) with (c + 2 ^ 64).
  - lia.
  - apply Z.mod_unique with (q := -1); lia.
Qed.

Lemma negative_capacity_never_subdivides_witness :
  INT_MIN <= -1 /\ -1 < 0 /\ Z.of_nat (length main_objects) < 2 ^ 63 /\
  insert_all 1 (new_Quadtree worldBoundary (-1)) main_objects
  = Some (map (fun obj => intersects worldBoundary (bounds obj)) main_objects,
          Leaf worldBoundary (-1) (accepted worldBoundary main_objects)).
Proof.
  assert (H1 : INT_MIN <= -1) by (unfold INT_MIN; lia).
  assert (H2 : -1 < 0) by lia.
  assert (H3 : Z.of_nat (length main_objects) < 2 ^ 63) by (cbn; lia).
  split; [exact H1|]. split; [exact H2|]. split; [exact H3|].
  exact (negative_capacity_never_subdivides worldBoundary (-1) main_objects
           H1 H2 H3).
Defined.

(** * Properties of the Sierpinski triangle *)

Lemma drawSierpinski_triangles : forall n fuel p1 p2 p3 out,
    (n < fuel)%nat ->
    Sierpinski.drawSierpinski fuel p1 p2 p3 (Z.of_nat n) out
    = Some (out ++ flat_map Sierpinski.edges (Sierpinski.triangles n p1 p2 p3)).
Proof.
  induction n as [|n IH]; intros fuel p1 p2 p3 out Hf;
    (destruct fuel as [|fuel]; [lia|]).
  - cbn. unfold Sierpinski.drawLine. now rewrite <- !app_assoc.
  - cbn [Sierpinski.drawSierpinski Sierpinski.triangles].
    replace (Z.of_nat (S n) =? 0) with false by (symmetry; apply Z.eqb_neq; lia).
    replace (Z.of_nat (S n) - 1) with (Z.of_nat n) by lia.
    rewrite !IH by lia. cbn [bind]. rewrite !IH by lia. cbn [bind].
    rewrite !IH by lia. now rewrite !flat_map_app, <- !app_assoc.
Qed.

Lemma triangles_length : forall n p1 p2 p3,
    length (Sierpinski.triangles n p1 p2 p3) = (3 ^ n)%nat.
Proof.
  induction n as [|n IH]; intros p1 p2 p3; [reflexivity|].
  cbn [Sierpinski.triangles]. rewrite !length_app, !IH. cbn [Nat.pow]. lia.
Qed.

Lemma edges_length : forall l,
    length (flat_map Sierpinski.edges l) = (3 * length l)%nat.
Proof.
  induction l as [|[[p1 p2] p3] l IH]; [reflexivity|].
  cbn [flat_map Sierpinski.edges length app]. rewrite IH. lia.
Qed.

(** X10.  For a depth [d >= 0], [drawSierpinski] returns after a recursion
    of [d + 1] levels and has then drawn, after what was drawn before, the
    3^d smallest triangles one after the other, each as its three lines
    p1-p2, p2-p3, p3-p1: 3 * 3^d lines in all. *)
Theorem drawSierpinski_draws_triangles p1 p2 p3 depth out fuel :
  0 <= depth -> (Z.to_nat depth < fuel)%nat ->
  exists lines,
    Sierpinski.drawSierpinski fuel p1 p2 p3 depth out = Some (out ++ lines) /\
    lines = flat_map Sierpinski.edges
                     (Sierpinski.triangles (Z.to_nat depth) p1 p2 p3) /\
    length lines = (3 * 3 ^ Z.to_nat depth)%nat.
Proof.
  intros Hd Hf. eexists. split; [|split; [reflexivity|]].
  - rewrite <- (Z2Nat.id depth) at 1 by assumption.
    now apply drawSierpinski_triangles.
  - now rewrite edges_length, triangles_length.
Qed.

Lemma drawSierpinski_draws_triangles_witness :
  0 <= Sierpinski.recursion_depth /\
  (Z.to_nat Sierpinski.recursion_depth < 5)%nat /\
  exists lines,
    Sierpinski.drawSierpinski 5 Sierpinski.start_p1 Sierpinski.start_p2
                              Sierpinski.start_p3 Sierpinski.recursion_depth []
    = Some ([] ++ lines) /\
    lines = flat_map Sierpinski.edges
                     (Sierpinski.triangles
                        (Z.to_nat Sierpinski.recursion_depth)
                        Sierpinski.start_p1 Sierpinski.start_p2
                        Sierpinski.start_p3) /\
    length lines = (3 * 3 ^ Z.to_nat Sierpinski.recursion_depth)%nat.
Proof.
  assert (H1 : 0 <= Sierpinski.recursion_depth)
    by (unfold Sierpinski.recursion_depth; lia).
  assert (H2 : (Z.to_nat Sierpinski.recursion_depth < 5)%nat)
    by (unfold Sierpinski.recursion_depth; lia).
  split; [exact H1|]. split; [exact H2|].
  exact (drawSierpinski_draws_triangles _ _ _ _ [] 5%nat H1 H2).
Defined.



(** * Properties of the Julia set iteration *)

Lemma julia_loop_spec ops c max_iterations z0 : forall n k,
    Z.of_nat (k + n) = max_iterations ->
    (forall j, (j < k)%nat ->
               Julia.norm_gt_4 ops (Julia.orbit ops c z0 (S j)) = false) ->
    let r := Julia.julia_loop ops c max_iterations n (Z.of_nat k)
                              (Julia.orbit ops c z0 k) in
    Z.of_nat k <= r <= max_iterations /\
    (r < max_iterations ->
     Julia.norm_gt_4 ops (Julia.orbit ops c z0 (S (Z.to_nat r))) = true) /\
    (forall j, (j < Z.to_nat r)%nat ->
               Julia.norm_gt_4 ops (Julia.orbit ops c z0 (S j)) = false).
Proof.
  induction n as [|n IH]; intros k Hk Hbefore; cbn [Julia.julia_loop].
  - cbv zeta. rewrite Nat.add_0_r in Hk. subst max_iterations.
    split; [lia|]. split; [lia|]. intros j Hj. apply Hbefore. lia.
  - change (Julia.add ops (Julia.mul ops (Julia.orbit ops c z0 k)
                                     (Julia.orbit ops c z0 k)) c)
      with (Julia.orbit ops c z0 (S k)).
    destruct (Julia.norm_gt_4 ops (Julia.orbit ops c z0 (S k))) eqn:E.
    + cbv zeta. rewrite Nat2Z.id. split; [lia|]. split; [auto|].
      exact Hbefore.
    + replace (Z.of_nat k + 1) with (Z.of_nat (S k)) by lia.
      specialize (IH (S k)). cbv zeta in IH.
      destruct IH as (R1 & R2 & R3).
      * lia.
      * intros j Hj. destruct (Nat.eq_dec j k) as [->|Hne]; [exact E|].
        apply Hbefore. lia.
      * split; [lia|]. split; assumption.
Qed.

(** X12.  For [max_iterations >= 0], whatever the complex arithmetic,
    [julia_iterations] returns a count [r] with [0 <= r <= max_iterations]:
    the index of the first step after which [std::norm(z) > 4.0] holds,
    when there is one among the first [max_iterations] steps ([z] escapes
    after step [r + 1] and after none before), and [max_iterations] when
    there is none. *)
Theorem julia_iterations_first_escape ops c z0 max_iterations :
  0 <= max_iterations ->
  let r := Julia.julia_iterations ops c z0 max_iterations in
  0 <= r <= max_iterations /\
  (r < max_iterations ->
   Julia.norm_gt_4 ops (Julia.orbit ops c z0 (S (Z.to_nat r))) = true) /\
  (forall j, (j < Z.to_nat r)%nat ->
             Julia.norm_gt_4 ops (Julia.orbit ops c z0 (S j)) = false).
Proof.
  intros Hm. unfold Julia.julia_iterations.
  apply (julia_loop_spec ops c max_iterations z0 (Z.to_nat max_iterations) 0).
  - cbn [Nat.add]. now apply Z2Nat.id.
  - intros j Hj. lia.
Qed.

Lemma julia_iterations_first_escape_witness :
  0 <= 10 /\
  Julia.julia_iterations gauss_ops (1, 0) (1, 0) 10 = 1 /\
  0 <= Julia.julia_iterations gauss_ops (1, 0) (1, 0) 10 <= 10.
Proof.
  assert (H : 0 <= 10) by lia.
  split; [exact H|]. split; [reflexivity|].
  exact (proj1 (julia_iterations_first_escape gauss_ops (1, 0) (1, 0) 10 H)).
Defined.

(** X13.  For an iteration count [0 <= iterations < max_iterations] (with
    [iterations * 255] an [int]), the pixel gets the colour
    (v, v / 2, v / 4) with v = iterations * 255 / max_iterations, which lies
    between 0 and 254, so that the conversion to [unsigned char] loses
    nothing, and v does not decrease when the count grows; a count of 0
    gives black, the colour of the points that never escape. *)
Theorem pixel_color_gradient iterations max_iterations :
  0 <= iterations -> iterations < max_iterations ->
  iterations * 255 <= INT_MAX ->
  let v := iterations * 255 / max_iterations in
  Julia.pixel_color iterations max_iterations = (v, v / 2, v / 4) /\
  0 <= v <= 254 /\
  (forall k, 0 <= k <= iterations -> k * 255 / max_iterations <= v) /\
  Julia.pixel_color 0 max_iterations = (0, 0, 0) /\
  Julia.pixel_color max_iterations max_iterations = (0, 0, 0).
Proof.
  intros H0 H1 _. cbv zeta.
  assert (Hv : 0 <= iterations * 255 / max_iterations <= 254).
  { split; [apply Z.div_pos; lia|].
    apply Z.lt_succ_r. apply Z.div_lt_upper_bound; lia. }
  split; [|split; [exact Hv|split; [|split]]].
  - unfold Julia.pixel_color, Julia.to_uchar.
    replace (iterations =? max_iterations) with false
      by (symmetry; apply Z.eqb_neq; lia).
    rewrite !Z.quot_div_nonneg by lia.
    rewrite (Z.mod_small (iterations * 255 / max_iterations)) by lia.
    rewrite !Z.quot_div_nonneg by lia.
    assert (0 <= iterations * 255 / max_iterations / 2 <= 254)
      by (split; [apply Z.div_pos; lia|];
          apply Z.le_trans with (m := iterations * 255 / max_iterations);
          [apply Z.div_le_upper_bound; lia|lia]).
    assert (0 <= iterations * 255 / max_iterations / 4 <= 254)
      by (split; [apply Z.div_pos; lia|];
          apply Z.le_trans with (m := iterations * 255 / max_iterations);
          [apply Z.div_le_upper_bound; lia|lia]).
    now rewrite !Z.mod_small by lia.
  - intros k Hk. apply Z.div_le_mono; lia.
  - unfold Julia.pixel_color, Julia.to_uchar.
    replace (0 =? max_iterations) with false
      by (symmetry; apply Z.eqb_neq; lia).
    reflexivity.
  - unfold Julia.pixel_color. now rewrite Z.eqb_refl.
Qed.

Lemma pixel_color_gradient_witness :
  0 <= 37 /\ 37 < 100 /\ 37 * 255 <= INT_MAX /\
  Julia.pixel_color 37 100 = (94, 47, 23).
Proof.
  assert (H0 : 0 <= 37) by lia.
  assert (H1 : 37 < 100) by lia.
  assert (H2 : 37 * 255 <= INT_MAX) by (unfold INT_MAX; lia).
  split; [exact H0|]. split; [exact H1|]. split; [exact H2|].
  exact (proj1 (pixel_color_gradient 37 100 H0 H1 H2)).
Defined.
